(** * The streaming relay worker (src/index.ts), embedded in Rocq

    The worker's [fetch] handler answers the CORS preflight, serves a
    documentation page, and relays the events of one upstream
    [responses.create] call as server-sent-event frames.  The embedding
    follows the current listing of src/index.ts (the one with the GET
    branch) and keeps the worker's own names ([fetch], [start],
    [corsHeaders], [MODEL]).  The pieces of the JavaScript platform the
    handler calls ([JSON.stringify], [JSON.parse], [Response], the stream
    controller, the SDK client) are modelled next to it, each with a
    comment saying what it stands for.

    Asynchrony is folded away: an [await] is the value or the exception
    it ends in, and the stream body is the complete run of its [start]
    method.  What the reader of the stream has consumed at a given moment
    is not part of the model. *)

From Stdlib Require Import Ascii String List NArith ZArith Bool Lia.
From Stdlib Require Import DecimalPos DecimalN.
Import ListNotations.

Set Implicit Arguments.
Set Warnings "-register-all".

(* ================================================================== *)
(** ** JavaScript strings *)
(* ================================================================== *)

(** A JavaScript string is a sequence of UTF-16 code units.  A code unit is
    kept as the number it holds. *)
Definition jstring := list N.

(** The code units of an ASCII literal of the source text. *)
Definition lit (s : string) : jstring :=
  map N_of_ascii (list_ascii_of_string s).

Definition jstring_eqb (a b : jstring) : bool :=
  if list_eq_dec N.eq_dec a b then true else false.

(** Code units with a role in JSON text. *)
Definition cQuote : N := 34.      (* double quote *)
Definition cBackslash : N := 92.  (* backslash *)
Definition cSlash : N := 47.      (* slash *)
Definition cComma : N := 44.
Definition cColon : N := 58.
Definition cLBracket : N := 91.
Definition cRBracket : N := 93.
Definition cLBrace : N := 123.
Definition cRBrace : N := 125.
Definition cMinus : N := 45.
Definition cPlus : N := 43.
Definition cDot : N := 46.
Definition cZero : N := 48.
Definition cNewline : N := 10.    (* line feed *)

(* ================================================================== *)
(** ** JSON values *)
(* ================================================================== *)

(** A finite Number other than zero, as [Number::toString] sees it: the
    sign, the digits [s] of the shortest decimal significand (most
    significant first, each a value 0..9) and the position [n] of the
    decimal point, so that the value is 0.s * 10^n.  Zero is [NumZero]. *)
Inductive number :=
| NumZero
| NumFinite (negative : bool) (sig : list N) (point : Z).

(** The values [JSON.parse] produces and [JSON.stringify] prints: the
    events of the provider's stream and the request body are such values.
    An object is the list of its own properties in the order the engine
    enumerates them. *)
Inductive json :=
| JNull
| JBool (b : bool)
| JNum (x : number)
| JStr (s : jstring)
| JArr (items : list json)
| JObj (props : list (jstring * json)).

(** A JavaScript value that may be [undefined]. *)
Definition jsval := option json.
Definition undefined : jsval := None.

(** Induction over the nesting of a JSON value. *)
Section json_induction.
Variable P : json -> Prop.
Hypothesis Hnull : P JNull.
Hypothesis Hbool : forall b, P (JBool b).
Hypothesis Hnum : forall x, P (JNum x).
Hypothesis Hstr : forall s, P (JStr s).
Hypothesis Harr : forall l, Forall P l -> P (JArr l).
Hypothesis Hobj : forall ps, Forall (fun kv => P (snd kv)) ps -> P (JObj ps).

Fixpoint json_nested_ind (v : json) : P v :=
  match v with
  | JNull => Hnull
  | JBool b => Hbool b
  | JNum x => Hnum x
  | JStr s => Hstr s
  | JArr l =>
      Harr ((fix go (l : list json) : Forall P l :=
               match l with
               | [] => Forall_nil _
               | x :: t => Forall_cons _ (json_nested_ind x) (go t)
               end) l)
  | JObj ps =>
      Hobj ((fix go (ps : list (jstring * json))
               : Forall (fun kv => P (snd kv)) ps :=
               match ps with
               | [] => Forall_nil _
               | kv :: t => Forall_cons _ (json_nested_ind (snd kv)) (go t)
               end) ps)
  end.
End json_induction.

(* ================================================================== *)
(** ** JSON.stringify *)
(* ================================================================== *)

(** A hexadecimal digit, lower case as [JSON.stringify] writes it. *)
Definition hex_digit (d : N) : N :=
  if (d <? 10)%N then (48 + d)%N else (87 + d)%N.

(** [UnicodeEscape]: backslash, u, and the four hex digits of the unit. *)
Definition UnicodeEscape (c : N) : jstring :=
  [cBackslash; 117%N;
   hex_digit ((c / 4096) mod 16); hex_digit ((c / 256) mod 16);
   hex_digit ((c / 16) mod 16); hex_digit (c mod 16)]%N.

Definition is_leading_surrogate (c : N) : bool :=
  ((55296 <=? c) && (c <=? 56319))%N.
Definition is_trailing_surrogate (c : N) : bool :=
  ((56320 <=? c) && (c <=? 57343))%N.

(** The two-character escapes of [QuoteJSONString]'s table. *)
Definition short_escape (c : N) : option N :=
  if (c =? 8)%N then Some 98%N          (* b *)
  else if (c =? 9)%N then Some 116%N    (* t *)
  else if (c =? 10)%N then Some 110%N   (* line feed *)
  else if (c =? 12)%N then Some 102%N   (* f *)
  else if (c =? 13)%N then Some 114%N   (* r *)
  else if (c =? 34)%N then Some 34%N    (* quote *)
  else if (c =? 92)%N then Some 92%N    (* backslash *)
  else None.

(** The body of [QuoteJSONString]: the string is read code point by code
    point; a code point of the table gets its short escape, a control
    character or a surrogate that is not part of a pair gets a unicode
    escape, everything else is copied. *)
Fixpoint quote_units (s : jstring) : jstring :=
  match s with
  | [] => []
  | c :: t =>
      match short_escape c with
      | Some e => cBackslash :: e :: quote_units t
      | None =>
          if (c <? 32)%N then UnicodeEscape c ++ quote_units t
          else if is_leading_surrogate c then
            match t with
            | d :: t' =>
                if is_trailing_surrogate d then c :: d :: quote_units t'
                else UnicodeEscape c ++ quote_units t
            | [] => UnicodeEscape c
            end
          else if is_trailing_surrogate c then UnicodeEscape c ++ quote_units t
          else c :: quote_units t
      end
  end.

Definition QuoteJSONString (s : jstring) : jstring :=
  cQuote :: quote_units s ++ [cQuote].

(** Decimal digits of a natural number, most significant first. *)
Fixpoint uint_units (d : Decimal.uint) : jstring :=
  match d with
  | Decimal.Nil => []
  | Decimal.D0 r => 48%N :: uint_units r
  | Decimal.D1 r => 49%N :: uint_units r
  | Decimal.D2 r => 50%N :: uint_units r
  | Decimal.D3 r => 51%N :: uint_units r
  | Decimal.D4 r => 52%N :: uint_units r
  | Decimal.D5 r => 53%N :: uint_units r
  | Decimal.D6 r => 54%N :: uint_units r
  | Decimal.D7 r => 55%N :: uint_units r
  | Decimal.D8 r => 56%N :: uint_units r
  | Decimal.D9 r => 57%N :: uint_units r
  end.

Definition decimal_units (n : N) : jstring := uint_units (N.to_uint n).

Definition digit_unit (d : N) : N := (48 + d)%N.
Definition digit_units (s : list N) : jstring := map digit_unit s.
Definition zeros (n : nat) : jstring := repeat cZero n.

(** [Number::toString] in radix 10, on the significand [s] (of [k] digits)
    and the point position [n]: plain integer, plain fraction, fraction
    below one, or exponent notation. *)
Definition number_body (s : list N) (n : Z) : jstring :=
  let k := Z.of_nat (length s) in
  if ((k <=? n) && (n <=? 21))%Z then
    digit_units s ++ zeros (Z.to_nat (n - k))
  else if ((0 <? n) && (n <=? 21))%Z then
    digit_units (firstn (Z.to_nat n) s) ++ cDot ::
    digit_units (skipn (Z.to_nat n) s)
  else if ((-6 <? n) && (n <=? 0))%Z then
    cZero :: cDot :: zeros (Z.to_nat (- n)) ++ digit_units s
  else
    let e := (n - 1)%Z in
    let esign := if (e <? 0)%Z then cMinus else cPlus in
    let etail := 101%N :: esign :: decimal_units (Z.abs_N e) in
    match s with
    | [d] => digit_unit d :: etail
    | d :: r => digit_unit d :: cDot :: digit_units r ++ etail
    | [] => etail
    end.

Definition Number_toString (x : number) : jstring :=
  match x with
  | NumZero => [cZero]
  | NumFinite neg s n =>
      if neg then cMinus :: number_body s n else number_body s n
  end.

(** Items separated by commas, as in an array or an object. *)
Fixpoint join_comma (l : list jstring) : jstring :=
  match l with
  | [] => []
  | [x] => x
  | x :: t => x ++ cComma :: join_comma t
  end.

(** [JSON.stringify(v)] without replacer or indentation. *)
Fixpoint JSON_stringify (v : json) : jstring :=
  match v with
  | JNull => lit "null"
  | JBool true => lit "true"
  | JBool false => lit "false"
  | JNum x => Number_toString x
  | JStr s => QuoteJSONString s
  | JArr l => cLBracket :: join_comma (map JSON_stringify l) ++ [cRBracket]
  | JObj ps =>
      cLBrace ::
      join_comma
        (map (fun kv => QuoteJSONString (fst kv) ++ cColon :: JSON_stringify (snd kv)) ps)
      ++ [cRBrace]
  end.

(** An object literal of the source may hold [undefined] under a key;
    [JSON.stringify] leaves such a property out. *)
Fixpoint defined_props (o : list (jstring * jsval)) : list (jstring * json) :=
  match o with
  | [] => []
  | (k, Some v) :: t => (k, v) :: defined_props t
  | (_, None) :: t => defined_props t
  end.

Definition JSON_stringify_literal (o : list (jstring * jsval)) : jstring :=
  JSON_stringify (JObj (defined_props o)).

(* ================================================================== *)
(** ** JSON.parse *)
(* ================================================================== *)

(** JSON white space: space, tab, line feed, carriage return. *)
Definition is_ws (c : N) : bool :=
  ((c =? 32) || (c =? 9) || (c =? 10) || (c =? 13))%N.

Fixpoint skip_ws (s : jstring) : jstring :=
  match s with
  | c :: t => if is_ws c then skip_ws t else s
  | [] => []
  end.

Definition is_digit (c : N) : bool := ((48 <=? c) && (c <=? 57))%N.

(** The longest run of decimal digits at the head of the text, as digit
    values, and the rest of the text. *)
Fixpoint span_digits (s : jstring) : list N * jstring :=
  match s with
  | c :: t =>
      if is_digit c then
        let (ds, r) := span_digits t in ((c - 48)%N :: ds, r)
      else ([], s)
  | [] => ([], [])
  end.

Fixpoint digits_uint (ds : list N) : Decimal.uint :=
  match ds with
  | [] => Decimal.Nil
  | d :: t =>
      let r := digits_uint t in
      match d with
      | 0 => Decimal.D0 r | 1 => Decimal.D1 r | 2 => Decimal.D2 r
      | 3 => Decimal.D3 r | 4 => Decimal.D4 r | 5 => Decimal.D5 r
      | 6 => Decimal.D6 r | 7 => Decimal.D7 r | 8 => Decimal.D8 r
      | _ => Decimal.D9 r
      end%N
  end.

(** The natural number a run of digits denotes. *)
Definition digits_value (ds : list N) : N := N.of_uint (digits_uint ds).

(** The value of a hexadecimal digit, either case. *)
Definition hex_value (c : N) : option N :=
  if is_digit c then Some (c - 48)%N
  else if ((97 <=? c) && (c <=? 102))%N then Some (c - 87)%N
  else if ((65 <=? c) && (c <=? 70))%N then Some (c - 55)%N
  else None.

Definition hex4_value (a b c d : N) : option N :=
  match hex_value a, hex_value b, hex_value c, hex_value d with
  | Some x, Some y, Some z, Some w => Some (x * 4096 + y * 256 + z * 16 + w)%N
  | _, _, _, _ => None
  end.

(** The character a two-character escape stands for. *)
Definition unescape (e : N) : option N :=
  if (e =? 34)%N then Some 34%N
  else if (e =? 92)%N then Some 92%N
  else if (e =? 47)%N then Some 47%N
  else if (e =? 98)%N then Some 8%N
  else if (e =? 102)%N then Some 12%N
  else if (e =? 110)%N then Some 10%N
  else if (e =? 114)%N then Some 13%N
  else if (e =? 116)%N then Some 9%N
  else None.

(** A JSON string after its opening quote: the characters up to the
    closing quote, escapes decoded, and the text after the quote.  A raw
    control character is a syntax error. *)
Fixpoint parse_string_body (s : jstring) : option (jstring * jstring) :=
  match s with
  | [] => None
  | c :: t =>
      if (c =? cQuote)%N then Some ([], t)
      else if (c =? cBackslash)%N then
        match t with
        | e :: t1 =>
            if (e =? 117)%N then
              match t1 with
              | h1 :: h2 :: h3 :: h4 :: t2 =>
                  match hex4_value h1 h2 h3 h4, parse_string_body t2 with
                  | Some u, Some (str, r) => Some (u :: str, r)
                  | _, _ => None
                  end
              | _ => None
              end
            else
              match unescape e, parse_string_body t1 with
              | Some u, Some (str, r) => Some (u :: str, r)
              | _, _ => None
              end
        | [] => None
        end
      else if (c <? 32)%N then None
      else
        match parse_string_body t with
        | Some (str, r) => Some (c :: str, r)
        | None => None
        end
  end.

(** Leading zeros dropped and counted. *)
Fixpoint strip_leading_zeros (ds : list N) : nat * list N :=
  match ds with
  | d :: t =>
      if (d =? 0)%N then let (z, r) := strip_leading_zeros t in (S z, r)
      else (O, ds)
  | [] => (O, [])
  end.

Fixpoint strip_trailing_zeros (ds : list N) : list N :=
  match ds with
  | [] => []
  | d :: t =>
      match strip_trailing_zeros t with
      | [] => if (d =? 0)%N then [] else [d]
      | r => d :: r
      end
  end.

(** The Number denoted by integer digits [ip], fraction digits [fp] and
    exponent [ex]: the significand is [ip ++ fp] without its leading and
    trailing zeros, and the point moves with the exponent and the leading
    zeros dropped. *)
Definition make_number (neg : bool) (ip fp : list N) (ex : Z) : number :=
  let (z, D) := strip_leading_zeros (ip ++ fp) in
  match strip_trailing_zeros D with
  | [] => NumZero
  | s => NumFinite neg s (Z.of_nat (length ip) + ex - Z.of_nat z)
  end.

(** The optional fraction of a number: a dot and at least one digit. *)
Definition parse_frac (s : jstring) : option (list N * jstring) :=
  match s with
  | c :: t =>
      if (c =? cDot)%N then
        match span_digits t with
        | ([], _) => None
        | (fp, r) => Some (fp, r)
        end
      else Some ([], s)
  | [] => Some ([], s)
  end.

(** The optional exponent of a number: e or E, an optional sign and at
    least one digit. *)
Definition parse_exp (s : jstring) : option (Z * jstring) :=
  match s with
  | c :: t =>
      if ((c =? 101) || (c =? 69))%N then
        let (neg, t1) :=
          match t with
          | g :: t' =>
              if (g =? cMinus)%N then (true, t')
              else if (g =? cPlus)%N then (false, t')
              else (false, t)
          | [] => (false, t)
          end in
        match span_digits t1 with
        | ([], _) => None
        | (X, r) =>
            let v := Z.of_N (digits_value X) in
            Some (if neg then (- v)%Z else v, r)
        end
      else Some (0%Z, s)
  | [] => Some (0%Z, s)
  end.

(** A JSON number after its sign: an integer part without superfluous
    leading zero, optional fraction, optional exponent. *)
Definition parse_unsigned (neg : bool) (s1 : jstring) : option (number * jstring) :=
  match span_digits s1 with
  | ([], _) => None
  | (ip, s2) =>
      let int_ok :=
        match ip with
        | d :: _ :: _ => negb (d =? 0)%N
        | _ => true
        end in
      if int_ok then
        match parse_frac s2 with
        | Some (fp, s3) =>
            match parse_exp s3 with
            | Some (ex, s4) => Some (make_number neg ip fp ex, s4)
            | None => None
            end
        | None => None
        end
      else None
  end.

(** A JSON number: an optional minus and the rest. *)
Definition parse_number (s : jstring) : option (number * jstring) :=
  match s with
  | c :: t => if (c =? cMinus)%N then parse_unsigned true t else parse_unsigned false s
  | [] => None
  end.

(** The text without a given prefix, when it starts with it. *)
Fixpoint strip_prefix (p s : jstring) : option jstring :=
  match p, s with
  | [], _ => Some s
  | a :: p', b :: s' => if (a =? b)%N then strip_prefix p' s' else None
  | _ :: _, [] => None
  end.

(** *** Objects *)

(** The own property of an object under a key. *)
Fixpoint get_own (k : jstring) (o : list (jstring * json)) : jsval :=
  match o with
  | [] => undefined
  | (k', v) :: t => if jstring_eqb k k' then Some v else get_own k t
  end.

Fixpoint set_own (k : jstring) (v : json) (o : list (jstring * json))
  : list (jstring * json) :=
  match o with
  | [] => []
  | (k', v') :: t =>
      if jstring_eqb k k' then (k', v) :: t else (k', v') :: set_own k v t
  end.

(** An array index is the canonical decimal text of an integer below
    2^32 - 1.  The engine enumerates the properties under array indices
    first, in ascending order, and the others in the order of creation. *)
Definition is_array_index (k : jstring) : option N :=
  match span_digits k with
  | (d :: t, []) =>
      let canonical := match t with [] => true | _ => negb (d =? 0)%N end in
      if canonical && (length k <=? 10)%nat
         && (digits_value (d :: t) <=? 4294967294)%N
      then Some (digits_value (d :: t))
      else None
  | _ => None
  end.

Fixpoint insert_index (i : N) (kv : jstring * json) (o : list (jstring * json))
  : list (jstring * json) :=
  match o with
  | [] => [kv]
  | kv' :: t =>
      match is_array_index (fst kv') with
      | Some j => if (j <? i)%N then kv' :: insert_index i kv t else kv :: o
      | None => kv :: o
      end
  end.

(** [CreateDataProperty]: an existing property gets the new value and
    keeps its place, a new one is put where the enumeration order has it. *)
Definition obj_define (o : list (jstring * json)) (kv : jstring * json)
  : list (jstring * json) :=
  let (k, v) := kv in
  match get_own k o with
  | Some _ => set_own k v o
  | None =>
      match is_array_index k with
      | Some i => insert_index i kv o
      | None => o ++ [kv]
      end
  end.

(** The object built from the members of an object text, in text order. *)
Definition build_object (members : list (jstring * json)) : list (jstring * json) :=
  fold_left obj_define members [].

(** *** Values *)

Definition lit_true := Eval compute in lit "true".
Definition lit_false := Eval compute in lit "false".
Definition lit_null := Eval compute in lit "null".

(** A JSON value at the head of the text, possibly after white space, and
    the rest of the text.  Every call passes less fuel on; [JSON_parse]
    below gives enough of it for any text. *)
Fixpoint parse_value (fuel : nat) (s : jstring) {struct fuel}
  : option (json * jstring) :=
  match fuel with
  | O => None
  | S f =>
      match skip_ws s with
      | [] => None
      | c :: t =>
          if (c =? cQuote)%N then
            match parse_string_body t with
            | Some (str, r) => Some (JStr str, r)
            | None => None
            end
          else if (c =? cLBracket)%N then
            match skip_ws t with
            | d :: t' =>
                if (d =? cRBracket)%N then Some (JArr [], t')
                else
                  match parse_elements f (d :: t') with
                  | Some (l, r) => Some (JArr l, r)
                  | None => None
                  end
            | [] => None
            end
          else if (c =? cLBrace)%N then
            match skip_ws t with
            | d :: t' =>
                if (d =? cRBrace)%N then Some (JObj [], t')
                else
                  match parse_members f (d :: t') with
                  | Some (ms, r) => Some (JObj (build_object ms), r)
                  | None => None
                  end
            | [] => None
            end
          else if (c =? 116)%N then
            match strip_prefix lit_true (c :: t) with
            | Some r => Some (JBool true, r)
            | None => None
            end
          else if (c =? 102)%N then
            match strip_prefix lit_false (c :: t) with
            | Some r => Some (JBool false, r)
            | None => None
            end
          else if (c =? 110)%N then
            match strip_prefix lit_null (c :: t) with
            | Some r => Some (JNull, r)
            | None => None
            end
          else
            match parse_number (c :: t) with
            | Some (x, r) => Some (JNum x, r)
            | None => None
            end
      end
  end

(** The elements of an array after its opening bracket, up to and
    including the closing bracket. *)
with parse_elements (fuel : nat) (s : jstring) {struct fuel}
  : option (list json * jstring) :=
  match fuel with
  | O => None
  | S f =>
      match parse_value f s with
      | Some (v, r) =>
          match skip_ws r with
          | d :: r' =>
              if (d =? cComma)%N then
                match parse_elements f r' with
                | Some (l, r'') => Some (v :: l, r'')
                | None => None
                end
              else if (d =? cRBracket)%N then Some ([v], r')
              else None
          | [] => None
          end
      | None => None
      end
  end

(** The members of an object after its opening brace, up to and including
    the closing brace: a string key, a colon, a value, and a comma or the
    closing brace. *)
with parse_members (fuel : nat) (s : jstring) {struct fuel}
  : option (list (jstring * json) * jstring) :=
  match fuel with
  | O => None
  | S f =>
      match skip_ws s with
      | q :: t =>
          if (q =? cQuote)%N then
            match parse_string_body t with
            | Some (k, r) =>
                match skip_ws r with
                | c :: r1 =>
                    if (c =? cColon)%N then
                      match parse_value f r1 with
                      | Some (v, r2) =>
                          match skip_ws r2 with
                          | d :: r3 =>
                              if (d =? cComma)%N then
                                match parse_members f r3 with
                                | Some (ms, r4) => Some ((k, v) :: ms, r4)
                                | None => None
                                end
                              else if (d =? cRBrace)%N then Some ([(k, v)], r3)
                              else None
                          | [] => None
                          end
                      | None => None
                      end
                    else None
                | [] => None
                end
            | None => None
            end
          else None
      | [] => None
      end
  end.

(** [JSON.parse(text)]: one value, white space around it, nothing else.
    [None] stands for the SyntaxError it throws. *)
Definition JSON_parse (text : jstring) : option json :=
  match parse_value (2 * length text + 1) text with
  | Some (v, r) =>
      match skip_ws r with
      | [] => Some v
      | _ :: _ => None
      end
  | None => None
  end.

(* ================================================================== *)
(** ** Exceptions and effects *)
(* ================================================================== *)

(** What a [throw] carries: an instance of [Error] with its message, or
    anything else. *)
Inductive thrown :=
| ErrorObject (message : jstring)
| NonError (v : jsval).

(** A computation either completes with a value or throws. *)
Definition result (A : Type) : Type := (A + thrown)%type.

(** Code that reads and writes a state [S] and may throw. *)
Definition M (S A : Type) : Type := S -> result A * S.

Definition ret {S A} (a : A) : M S A := fun s => (inl a, s).
Definition throw {S A} (e : thrown) : M S A := fun s => (inr e, s).
Definition bind {S A B} (m : M S A) (k : A -> M S B) : M S B :=
  fun s =>
    match m s with
    | (inl a, s') => k a s'
    | (inr e, s') => (inr e, s')
    end.
Definition try_catch {S A} (m : M S A) (handler : thrown -> M S A) : M S A :=
  fun s =>
    match m s with
    | (inl a, s') => (inl a, s')
    | (inr e, s') => handler e s'
    end.
Definition lift_result {S A} (r : result A) : M S A := fun s => (r, s).
Definition modify {S} (f : S -> S) : M S unit := fun s => (inl tt, f s).

Declare Scope js_scope.
Delimit Scope js_scope with js.
Notation "x <- m ;; k" := (bind m (fun x => k))
  (at level 61, m at next level, right associativity) : js_scope.
Notation "m ;;; k" := (bind m (fun _ => k))
  (at level 61, right associativity) : js_scope.

(** The messages of the errors the platform itself throws are the
    engine's business; the worker only copies them. *)
Record Engine := {
  syntax_error_message : jstring -> jstring; (* JSON.parse, from the text *)
  destructure_message : jstring;             (* destructuring null *)
  enqueue_message : jstring;                 (* enqueue on a stream not readable *)
  close_message : jstring                    (* close on a stream not readable *)
}.

(* ================================================================== *)
(** ** The provider's stream and the SDK *)
(* ================================================================== *)

(** An event of the provider's stream is an object (every member of the
    SDK's event union is one). *)
Record UpstreamEvent := { own : list (jstring * json) }.

(** [event.type]: the own property, [undefined] when there is none. *)
Definition type (event : UpstreamEvent) : jsval := get_own (lit "type") (own event).

(** The event as a value, as in [data: event]. *)
Definition event_value (event : UpstreamEvent) : json := JObj (own event).

(** One pass over the async iterable [responses.create] resolves to:
    events one after the other, until the iteration ends or throws. *)
Inductive AsyncIter :=
| IterYield (event : UpstreamEvent) (rest : AsyncIter)
| IterDone
| IterThrow (e : thrown).

(** The argument of [openai.responses.create]. *)
Record CreateParams := {
  model : jstring;
  input : jsval;
  tools : jsval;
  stream : bool;
  parallel_tool_calls : bool
}.

(** The client [new OpenAI({ apiKey })] builds. *)
Record OpenAI := { apiKey : option jstring }.

(** The SDK, as far as the worker uses it: the constructor may throw, and
    [responses.create] rejects or resolves to a stream of events. *)
Record SDK := {
  sdk_construct : option jstring -> option thrown;
  sdk_create : OpenAI -> CreateParams -> result AsyncIter
}.

(* ================================================================== *)
(** ** ReadableStream controller *)
(* ================================================================== *)

Inductive stream_state := Readable | Closed | Errored (e : thrown).

(** The controller of the outward stream: the chunks it has accepted so
    far, in order (what the reader has taken of them is not tracked), and
    the state of the stream. *)
Record controller := { written : list jstring; state : stream_state }.

(** What the next step of the iteration gave. *)
Inductive iter_result :=
| Yielded (event : UpstreamEvent)
| Finished
| Threw (e : thrown).

(** The calls [start] makes, in the order it makes them. *)
Inductive action :=
| Next (r : iter_result)
| Enqueue (chunk : jstring)
| Close
| Error (e : thrown)
| ConsoleError (label : jstring) (e : thrown).

Record StreamWorld := { ctrl : controller; trace : list action }.

Definition record_action (a : action) : M StreamWorld unit :=
  modify (fun w => {| ctrl := ctrl w; trace := trace w ++ [a] |}).

Definition is_readable (s : stream_state) : bool :=
  match s with Readable => true | _ => false end.

Section Worker.

Variable engine : Engine.
Variable sdk : SDK.

(** The documentation page of the GET branch: a template literal without
    interpolation, whose text no property below depends on. *)
Variable html : jstring.

(** [controller.enqueue(chunk)]: a readable stream takes the chunk, any
    other throws a TypeError. *)
Definition controller_enqueue (chunk : jstring) : M StreamWorld unit :=
  fun w =>
    let w1 := {| ctrl := ctrl w; trace := trace w ++ [Enqueue chunk] |} in
    if is_readable (state (ctrl w)) then
      (inl tt, {| ctrl := {| written := written (ctrl w) ++ [chunk];
                             state := Readable |};
                  trace := trace w1 |})
    else (inr (ErrorObject (enqueue_message engine)), w1).

(** [controller.close()]. *)
Definition controller_close : M StreamWorld unit :=
  fun w =>
    let w1 := {| ctrl := ctrl w; trace := trace w ++ [Close] |} in
    if is_readable (state (ctrl w)) then
      (inl tt, {| ctrl := {| written := written (ctrl w); state := Closed |};
                  trace := trace w1 |})
    else (inr (ErrorObject (close_message engine)), w1).

(** [controller.error(e)]: puts a readable stream in the error state and
    leaves any other as it is; it never throws. *)
Definition controller_error (e : thrown) : M StreamWorld unit :=
  fun w =>
    let w1 := {| ctrl := ctrl w; trace := trace w ++ [Error e] |} in
    if is_readable (state (ctrl w)) then
      (inl tt, {| ctrl := {| written := written (ctrl w); state := Errored e |};
                  trace := trace w1 |})
    else (inl tt, w1).

Definition console_error (label : jstring) (e : thrown) : M StreamWorld unit :=
  record_action (ConsoleError label e).

(* ================================================================== *)
(** ** The relay: [start] *)
(* ================================================================== *)

Open Scope js_scope.

(** The object literal [{ event: event.type, data: event }]. *)
Definition envelope (event : UpstreamEvent) : list (jstring * jsval) :=
  [(lit "event", type event); (lit "data", Some (event_value event))].

(** The template literal around [data]: the text [data: ], the JSON text
    and two line feeds. *)
Definition frame (event : UpstreamEvent) : jstring :=
  let data := JSON_stringify_literal (envelope event) in
  lit "data: " ++ data ++ [cNewline; cNewline].

(** The body of the loop, for one event. *)
Definition relay_event (event : UpstreamEvent) : M StreamWorld unit :=
  controller_enqueue (frame event).

(** [for await (const event of events) { ... }]: the next event is asked
    for once the body has run for the one before. *)
Fixpoint for_await (events : AsyncIter) : M StreamWorld unit :=
  match events with
  | IterYield event rest =>
      record_action (Next (Yielded event)) ;;;
      relay_event event ;;;
      for_await rest
  | IterDone => record_action (Next Finished)
  | IterThrow e => record_action (Next (Threw e)) ;;; throw e
  end.

(** The [start] method of the stream's source. *)
Definition start (events : AsyncIter) : M StreamWorld unit :=
  try_catch
    (for_await events ;;;
     controller_close)
    (fun error =>
       console_error (lit "Error in streaming loop:") error ;;;
       controller_error error).

(** [new ReadableStream({ start })]: [start] runs on a fresh controller. *)
Definition fresh_stream : StreamWorld :=
  {| ctrl := {| written := []; state := Readable |}; trace := [] |}.

Definition new_ReadableStream (events : AsyncIter) : result unit * StreamWorld :=
  start events fresh_stream.

(* ================================================================== *)
(** ** Request and Response *)
(* ================================================================== *)

(** [new URL(request.url)], of which the handler reads [pathname]. *)
Record URL := { pathname : string }.

(** The inbound request: method, parsed URL, and the text of the body. *)
Record Request := { method : string; url : URL; body_text : jstring }.

(** The worker's bindings. *)
Record Env := { OPENAI_API_KEY : option jstring }.

(** The body of a response: none, a text, or a stream, which is given by
    the run of its [start] method. *)
Inductive Body :=
| BodyNull
| BodyText (text : jstring)
| BodyStream (run : result unit * StreamWorld).

Definition Headers := list (string * string).

Record ResponseInit := { init_status : option N; init_headers : Headers }.

Record Response := { status : N; headers : Headers; body : Body }.

Definition lower_ascii (c : ascii) : ascii :=
  let n := nat_of_ascii c in
  if ((65 <=? n) && (n <=? 90))%nat then ascii_of_nat (n + 32) else c.

Fixpoint lower (s : string) : string :=
  match s with
  | EmptyString => EmptyString
  | String c t => String (lower_ascii c) (lower t)
  end.

(** Header names match without regard to case. *)
Fixpoint get_header (name : string) (hs : Headers) : option string :=
  match hs with
  | [] => None
  | (n, v) :: t => if String.eqb (lower n) (lower name) then Some v else get_header name t
  end.

(** [new Response(body, init)]: the status is 200 unless given, and a text
    body brings a Content-Type of its own when [init] has none. *)
Definition new_Response (b : Body) (init : ResponseInit) : Response :=
  {| status := match init_status init with Some s => s | None => 200%N end;
     headers :=
       match b, get_header "Content-Type" (init_headers init) with
       | BodyText _, None =>
           init_headers init ++ [("Content-Type", "text/plain;charset=UTF-8")%string]
       | _, _ => init_headers init
       end;
     body := b |}.

(* ================================================================== *)
(** ** The handler: [fetch] *)
(* ================================================================== *)

(** config/constants.ts *)
Definition MODEL : jstring := lit "gpt-4.1-nano-2025-04-14".

Definition corsHeaders : Headers :=
  [("Access-Control-Allow-Origin", "*");
   ("Access-Control-Allow-Methods", "GET, POST, OPTIONS");
   ("Access-Control-Allow-Headers", "Content-Type")]%string.

(** What the handler leaves behind besides its response: the lines of
    [console.error] and the calls of [responses.create]. *)
Record FetchWorld := {
  console : list (jstring * thrown);
  upstream_calls : list CreateParams
}.

Definition fresh_world : FetchWorld := {| console := []; upstream_calls := [] |}.

(** [await request.json()]. *)
Definition request_json (request : Request) : M FetchWorld json :=
  match JSON_parse (body_text request) with
  | Some v => ret v
  | None => throw (ErrorObject (syntax_error_message engine (body_text request)))
  end.

(** A property read [v.name] for a name no built-in prototype defines and
    that is neither an index nor [length] (here: messages, tools): an
    object gives its own property, [null] makes the read throw, every
    other value gives [undefined]. *)
Definition get_property (v : json) (name : jstring) : result jsval :=
  match v with
  | JObj props => inl (get_own name props)
  | JNull => inr (ErrorObject (destructure_message engine))
  | _ => inl undefined
  end.

(** [const { messages, tools } = requestData]. *)
Definition destructure (requestData : json) : M FetchWorld (jsval * jsval) :=
  messages <- lift_result (get_property requestData (lit "messages")) ;;
  tools <- lift_result (get_property requestData (lit "tools")) ;;
  ret (messages, tools).

(** [new OpenAI({ apiKey })]. *)
Definition new_OpenAI (key : option jstring) : M FetchWorld OpenAI :=
  match sdk_construct sdk key with
  | Some e => throw e
  | None => ret {| apiKey := key |}
  end.

(** [await openai.responses.create(params)]. *)
Definition responses_create (openai : OpenAI) (params : CreateParams)
  : M FetchWorld AsyncIter :=
  modify (fun w => {| console := console w;
                      upstream_calls := upstream_calls w ++ [params] |}) ;;;
  lift_result (sdk_create sdk openai params).

Definition handler_console_error (label : jstring) (e : thrown) : M FetchWorld unit :=
  modify (fun w => {| console := console w ++ [(label, e)];
                      upstream_calls := upstream_calls w |}).

(** [error instanceof Error ? error.message : "Unknown error"]. *)
Definition error_message (error : thrown) : jstring :=
  match error with
  | ErrorObject message => message
  | NonError _ => lit "Unknown error"
  end.

(** The [try] block of the POST branch. *)
Definition turn_response (request : Request) (env : Env) : M FetchWorld Response :=
  requestData <- request_json request ;;
  mt <- destructure requestData ;;
  let (messages, tools) := mt in
  openai <- new_OpenAI (OPENAI_API_KEY env) ;;
  events <- responses_create openai
              {| model := MODEL;
                 input := messages;
                 tools := tools;
                 stream := true;
                 parallel_tool_calls := false |} ;;
  let stream := new_ReadableStream events in
  ret (new_Response (BodyStream stream)
         {| init_status := None;
            init_headers :=
              [("Content-Type", "text/event-stream");
               ("Cache-Control", "no-cache");
               ("Connection", "keep-alive")]%string ++ corsHeaders |}).

(** The [catch] block of the POST branch. *)
Definition handler_catch (error : thrown) : M FetchWorld Response :=
  handler_console_error (lit "Error in handler:") error ;;;
  ret (new_Response
         (BodyText (JSON_stringify_literal
                      [(lit "error", Some (JStr (error_message error)))]))
         {| init_status := Some 500%N;
            init_headers :=
              [("Content-Type", "application/json")%string] ++ corsHeaders |}).

(** The worker's [fetch]. *)
Definition fetch (request : Request) (env : Env) : M FetchWorld Response :=
  if String.eqb (method request) "OPTIONS" then
    ret (new_Response BodyNull
           {| init_status := None; init_headers := corsHeaders |})
  else
    let url := url request in
    if String.eqb (method request) "GET" then
      ret (new_Response (BodyText html)
             {| init_status := None;
                init_headers := [("Content-Type", "text/html")%string] ++ corsHeaders |})
    else if String.eqb (method request) "POST" then
      if negb (String.eqb (pathname url) "/api/turn_response") then
        ret (new_Response (BodyText (lit "Not found"))
               {| init_status := Some 404%N; init_headers := [] |})
      else
        try_catch (turn_response request env) handler_catch
    else
      ret (new_Response (BodyText (lit "Method not allowed"))
             {| init_status := Some 405%N; init_headers := corsHeaders |}).

(** The response of one request, with what the handler left behind. *)
Definition serve (request : Request) (env : Env) : result Response * FetchWorld :=
  fetch request env fresh_world.

End Worker.

(* ================================================================== *)
(** ** The first listing of the handler *)
(* ================================================================== *)

(** src/index.ts comes in two listings.  The first has no GET branch: it
    refuses every method but OPTIONS and POST before it looks at the URL,
    and its 405 has no headers.  Its [try] and [catch] blocks are those
    of the second listing. *)
Module FirstListing.

Definition fetch (engine : Engine) (sdk : SDK) (request : Request) (env : Env)
  : M FetchWorld Response :=
  if String.eqb (method request) "OPTIONS" then
    ret (new_Response BodyNull
           {| init_status := None; init_headers := corsHeaders |})
  else if negb (String.eqb (method request) "POST") then
    ret (new_Response (BodyText (lit "Method not allowed"))
           {| init_status := Some 405%N; init_headers := [] |})
  else
    let url := url request in
    if negb (String.eqb (pathname url) "/api/turn_response") then
      ret (new_Response (BodyText (lit "Not found"))
             {| init_status := Some 404%N; init_headers := [] |})
    else
      try_catch (turn_response engine sdk request env) handler_catch.

Definition serve (engine : Engine) (sdk : SDK) (request : Request) (env : Env)
  : result Response * FetchWorld :=
  fetch engine sdk request env fresh_world.

End FirstListing.

(* ================================================================== *)
(** ** Vocabulary of the statements *)
(* ================================================================== *)

(** The events an iteration yields, in order, and how it ends: [None] when
    it is exhausted, [Some e] when it throws [e]. *)
Fixpoint yielded (events : AsyncIter) : list UpstreamEvent :=
  match events with
  | IterYield event rest => event :: yielded rest
  | IterDone | IterThrow _ => []
  end.

Fixpoint iter_end (events : AsyncIter) : option thrown :=
  match events with
  | IterYield _ rest => iter_end rest
  | IterDone => None
  | IterThrow e => Some e
  end.

(** The iteration that yields the events of a list and then ends as said. *)
Fixpoint iteration (evs : list UpstreamEvent) (ending : option thrown) : AsyncIter :=
  match evs with
  | event :: rest => IterYield event (iteration rest ending)
  | [] => match ending with None => IterDone | Some e => IterThrow e end
  end.

(** Pulling an event and writing its frame, event after event. *)
Definition relay_steps (evs : list UpstreamEvent) : list action :=
  flat_map (fun event => [Next (Yielded event); Enqueue (frame event)]) evs.

(** The chunks a trace writes. *)
Fixpoint enqueued (t : list action) : list jstring :=
  match t with
  | Enqueue chunk :: r => chunk :: enqueued r
  | _ :: r => enqueued r
  | [] => []
  end.

(** The CORS header set, read off a response. *)
Definition has_cors (r : Response) : Prop :=
  get_header "Access-Control-Allow-Origin" (headers r) = Some "*"%string /\
  get_header "Access-Control-Allow-Methods" (headers r) = Some "GET, POST, OPTIONS"%string /\
  get_header "Access-Control-Allow-Headers" (headers r) = Some "Content-Type"%string.

(** The property of a request body under a name, [undefined] when the
    body is not an object. *)
Definition field (requestData : json) (name : string) : jsval :=
  match requestData with
  | JObj props => get_own (lit name) props
  | _ => undefined
  end.

(** The argument of the upstream call for a request body. *)
Definition relay_params (requestData : json) : CreateParams :=
  {| model := MODEL;
     input := field requestData "messages";
     tools := field requestData "tools";
     stream := true;
     parallel_tool_calls := false |}.

(** The streamed response over the events of an upstream call. *)
Definition stream_response (engine : Engine) (events : AsyncIter) : Response :=
  {| status := 200;
     headers :=
       [("Content-Type", "text/event-stream");
        ("Cache-Control", "no-cache");
        ("Connection", "keep-alive");
        ("Access-Control-Allow-Origin", "*");
        ("Access-Control-Allow-Methods", "GET, POST, OPTIONS");
        ("Access-Control-Allow-Headers", "Content-Type")]%string;
     body := BodyStream (new_ReadableStream engine events) |}.

(** The response to an error caught by the handler. *)
Definition error_response (error : thrown) : Response :=
  {| status := 500;
     headers :=
       [("Content-Type", "application/json");
        ("Access-Control-Allow-Origin", "*");
        ("Access-Control-Allow-Methods", "GET, POST, OPTIONS");
        ("Access-Control-Allow-Headers", "Content-Type")]%string;
     body := BodyText (JSON_stringify
                         (JObj [(lit "error", JStr (error_message error))])) |}.

(** The outcome of a request whose [try] block threw [error] after the
    given upstream calls. *)
Definition failed (error : thrown) (calls : list CreateParams)
  : result Response * FetchWorld :=
  (inl (error_response error),
   {| console := [(lit "Error in handler:", error)]; upstream_calls := calls |}).

(** The error response of the handler: status 500, JSON content type, and
    the JSON text of [{ error: message }] as a text body. *)
Definition is_error_response (r : Response) (message : jstring) : Prop :=
  status r = 500%N /\
  get_header "Content-Type" (headers r) = Some "application/json"%string /\
  body r = BodyText (JSON_stringify (JObj [(lit "error", JStr message)])).

(** A text that does not go on with a digit. *)
Definition no_digit_ahead (rest : jstring) : Prop :=
  match rest with
  | c :: _ => is_digit c = false
  | [] => True
  end.

(** A text that cannot continue a number: it does not start with a digit,
    a dot or an exponent mark. *)
Definition number_end (rest : jstring) : bool :=
  match rest with
  | c :: _ => negb (is_digit c) && negb (c =? cDot)%N
              && negb (c =? 101)%N && negb (c =? 69)%N
  | [] => true
  end.

(** Fuel that is enough to read a value back from its text. *)
Fixpoint cost (v : json) : nat :=
  match v with
  | JArr l => S (list_sum (map (fun x => S (cost x)) l))
  | JObj ps => S (list_sum (map (fun kv => S (cost (snd kv))) ps))
  | _ => 1
  end.

Definition list_cost (l : list json) : nat := list_sum (map (fun x => S (cost x)) l).
Definition props_cost (ps : list (jstring * json)) : nat :=
  list_sum (map (fun kv => S (cost (snd kv))) ps).

(** The text of one member of an object. *)
Definition member_text (kv : jstring * json) : jstring :=
  QuoteJSONString (fst kv) ++ cColon :: JSON_stringify (snd kv).

(** A value is read back from its text, whatever follows the text. *)
Definition reads_back (v : json) : Prop :=
  forall (fuel : nat) (rest : jstring),
    (cost v < fuel)%nat ->
    number_end rest = true ->
    parse_value fuel (JSON_stringify v ++ rest) = Some (v, rest).

(** A text without control characters: in particular without line feed. *)
Definition printable (s : jstring) : Prop := Forall (fun c => (32 <= c)%N) s.

(** The calls [start] makes when the stream it is given is not readable:
    the first write, or the close, throws the engine's TypeError, which
    is logged and handed to [controller.error]. *)
Definition refused_steps (engine : Engine) (events : AsyncIter) : list action :=
  let label := lit "Error in streaming loop:" in
  match events with
  | IterYield event _ =>
      let e := ErrorObject (enqueue_message engine) in
      [Next (Yielded event); Enqueue (frame event); ConsoleError label e; Error e]
  | IterDone =>
      let e := ErrorObject (close_message engine) in
      [Next Finished; Close; ConsoleError label e; Error e]
  | IterThrow e =>
      [Next (Threw e); ConsoleError label e; Error e]
  end.

(** The state [start] leaves a readable stream in. *)
Definition final_state (events : AsyncIter) : stream_state :=
  match iter_end events with
  | None => Closed
  | Some e => Errored e
  end.

(** *** Well-formed values *)

(** The significand of a finite Number is canonical: decimal digits, at
    least one, the first and the last not zero. *)
Definition wf_number (x : number) : bool :=
  match x with
  | NumZero => true
  | NumFinite _ s n =>
      match s with
      | [] => false
      | d :: _ => negb (d =? 0)%N
      end
      && negb (last s 1 =? 0)%N
      && forallb (fun d => (d <? 10)%N) s
  end.

(** The keys that may follow [k] in an object: after an array index only
    larger indices and names, after a name only names; never [k] again. *)
Definition may_follow (k k' : jstring) : bool :=
  negb (jstring_eqb k k') &&
  match is_array_index k, is_array_index k' with
  | Some i, Some j => (i <? j)%N
  | Some _, None => true
  | None, Some _ => false
  | None, None => true
  end.

Fixpoint wf_keys (ks : list jstring) : bool :=
  match ks with
  | [] => true
  | k :: t => forallb (may_follow k) t && wf_keys t
  end.

(** The values that exist at run time: Numbers as above, objects with
    their properties in enumeration order. *)
Fixpoint wf_json (v : json) : bool :=
  match v with
  | JNum x => wf_number x
  | JArr l => forallb wf_json l
  | JObj ps => wf_keys (map fst ps) && forallb (fun kv => wf_json (snd kv)) ps
  | _ => true
  end.

(** *** Sample collaborators *)

Module Sample.

Definition engine : Engine :=
  {| syntax_error_message := fun _ => lit "Unexpected token in JSON";
     destructure_message := lit "Cannot destructure property of null";
     enqueue_message := lit "Invalid state: stream is not readable";
     close_message := lit "Invalid state: stream is not readable" |}.

(** An SDK that wants a key and then streams the given events whatever
    it is asked. *)
Definition sdk (events : AsyncIter) : SDK :=
  {| sdk_construct := fun key =>
       match key with
       | Some _ => None
       | None => Some (ErrorObject (lit "Missing credentials"))
       end;
     sdk_create := fun _ _ => inl events |}.

Definition html : jstring := lit "<!DOCTYPE html>".

Definition env : Env := {| OPENAI_API_KEY := Some (lit "sk-test") |}.

(** One text delta, as in scenario A of the specification. *)
Definition delta : UpstreamEvent :=
  {| own := [(lit "type", JStr (lit "response.output_text.delta"));
             (lit "delta", JStr (lit "hi"))] |}.

Definition done : UpstreamEvent :=
  {| own := [(lit "type", JStr (lit "response.completed"));
             (lit "sequence_number", JNum (NumFinite false [2%N] 1))] |}.

Definition fault : thrown := ErrorObject (lit "Connection reset").

Definition post (path : string) (text : jstring) : Request :=
  {| method := "POST"; url := {| pathname := path |}; body_text := text |}.

(** The body of scenario A: one user message. *)
Definition hi_body : jstring :=
  JSON_stringify
    (JObj [(lit "messages",
            JArr [JObj [(lit "role", JStr (lit "user"));
                        (lit "content", JStr (lit "hi"))]])]).

End Sample.

(** *** Further sample collaborators *)

Module Stub.

(** An SDK that builds a client for any key and whose call rejects with
    the given value. *)
Definition rejecting (e : thrown) : SDK :=
  {| sdk_construct := fun _ => None;
     sdk_create := fun _ _ => inr e |}.

(** An SDK whose constructor throws the given value. *)
Definition unbuildable (e : thrown) : SDK :=
  {| sdk_construct := fun _ => Some e;
     sdk_create := fun _ _ => inl IterDone |}.

Definition put (path : string) : Request :=
  {| method := "PUT"; url := {| pathname := path |}; body_text := [] |}.

Definition get (path : string) : Request :=
  {| method := "GET"; url := {| pathname := path |}; body_text := [] |}.

End Stub.

(* ================================================================== *)
(** * Properties *)
(* ================================================================== *)

(** ** Strings *)

Lemma jstring_eqb_eq a b : jstring_eqb a b = true <-> a = b.
Proof.
  unfold jstring_eqb. destruct (list_eq_dec N.eq_dec a b); split; congruence.
Qed.

Lemma jstring_eqb_refl a : jstring_eqb a a = true.
Proof. apply jstring_eqb_eq. reflexivity. Qed.

Lemma jstring_eqb_neq a b : a <> b -> jstring_eqb a b = false.
Proof.
  intros H. unfold jstring_eqb. destruct (list_eq_dec N.eq_dec a b); congruence.
Qed.

(** ** The relay loop *)

Section Relay.

Variable engine : Engine.

Local Open Scope js_scope.

(** On a readable stream the loop writes the frame of every event it is
    given, in order, pulling the next event only after the write, and ends
    the way the iteration ends. *)
Lemma for_await_readable (events : AsyncIter) (w : StreamWorld) :
  state (ctrl w) = Readable ->
  for_await engine events w =
    (match iter_end events with None => inl tt | Some e => inr e end,
     {| ctrl := {| written := written (ctrl w) ++ map frame (yielded events);
                   state := Readable |};
        trace := trace w ++ relay_steps (yielded events) ++
                 [Next (match iter_end events with
                        | None => Finished
                        | Some e => Threw e
                        end)] |}).
Proof.
  revert w. induction events as [event rest IH| |e]; intros [[wr st] tr] Hst;
    simpl in Hst; subst st.
  - cbn [for_await yielded iter_end map].
    unfold bind at 1. unfold record_action, modify. cbn [ctrl trace].
    unfold bind at 1. unfold relay_event, controller_enqueue.
    cbn [ctrl trace state written is_readable].
    rewrite IH by reflexivity. cbn [ctrl trace state written].
    unfold relay_steps. cbn [flat_map].
    rewrite <- !app_assoc. reflexivity.
  - cbn. rewrite app_nil_r. reflexivity.
  - cbn. rewrite app_nil_r. reflexivity.
Qed.

(** The whole run of [start] on a fresh controller, when the iteration is
    exhausted. *)
Lemma start_exhausted (events : AsyncIter) :
  iter_end events = None ->
  new_ReadableStream engine events =
    (inl tt,
     {| ctrl := {| written := map frame (yielded events); state := Closed |};
        trace := relay_steps (yielded events) ++ [Next Finished; Close] |}).
Proof.
  intros Hend. unfold new_ReadableStream, start, try_catch.
  unfold bind at 1. rewrite for_await_readable by reflexivity.
  rewrite Hend. cbn. rewrite <- app_assoc. reflexivity.
Qed.

(** The whole run of [start] on a fresh controller, when the iteration
    throws. *)
Lemma start_faulted (events : AsyncIter) (e : thrown) :
  iter_end events = Some e ->
  new_ReadableStream engine events =
    (inl tt,
     {| ctrl := {| written := map frame (yielded events); state := Errored e |};
        trace := relay_steps (yielded events) ++
                 [Next (Threw e);
                  ConsoleError (lit "Error in streaming loop:") e;
                  Error e] |}).
Proof.
  intros Hend. unfold new_ReadableStream, start, try_catch.
  unfold bind at 1. rewrite for_await_readable by reflexivity.
  rewrite Hend. cbn. rewrite <- !app_assoc. reflexivity.
Qed.

Lemma enqueued_app (a b : list action) : enqueued (a ++ b) = enqueued a ++ enqueued b.
Proof.
  induction a as [|x a IH]; [reflexivity|].
  destruct x; cbn; rewrite IH; reflexivity.
Qed.

Lemma enqueued_relay_steps (evs : list UpstreamEvent) :
  enqueued (relay_steps evs) = map frame evs.
Proof.
  induction evs as [|ev evs IH]; [reflexivity|].
  change (relay_steps (ev :: evs))
    with (Next (Yielded ev) :: Enqueue (frame ev) :: relay_steps evs).
  cbn [enqueued map]. rewrite IH. reflexivity.
Qed.

Lemma iteration_yielded (evs : list UpstreamEvent) (ending : option thrown) :
  yielded (iteration evs ending) = evs.
Proof.
  induction evs as [|ev evs IH]; cbn; [destruct ending; reflexivity|].
  rewrite IH. reflexivity.
Qed.

Lemma iteration_end (evs : list UpstreamEvent) (ending : option thrown) :
  iter_end (iteration evs ending) = ending.
Proof.
  induction evs as [|ev evs IH]; cbn; [destruct ending; reflexivity|]. exact IH.
Qed.

(** C1. Whatever the provider's iteration yields and however it ends, the
    controller has been handed exactly one frame per event yielded, in the
    order of the events; the calls of [start] alternate pull and write,
    event after event, before the iteration's end is seen; and no frame
    is written besides these, whatever the events are. *)
Theorem relay_one_frame_per_event_in_order (events : AsyncIter) :
  let run := snd (new_ReadableStream engine events) in
  written (ctrl run) = map frame (yielded events) /\
  length (written (ctrl run)) = length (yielded events) /\
  enqueued (trace run) = map frame (yielded events) /\
  exists ending, trace run = relay_steps (yielded events) ++ ending /\
                 enqueued ending = [].
Proof.
  destruct (iter_end events) as [e|] eqn:Hend.
  - rewrite (start_faulted _ Hend). cbn [snd ctrl written trace].
    repeat split.
    + rewrite length_map. reflexivity.
    + rewrite enqueued_app, enqueued_relay_steps. cbn. apply app_nil_r.
    + eexists. split; reflexivity.
  - rewrite (start_exhausted _ Hend). cbn [snd ctrl written trace].
    repeat split.
    + rewrite length_map. reflexivity.
    + rewrite enqueued_app, enqueued_relay_steps. cbn. apply app_nil_r.
    + eexists. split; reflexivity.
Qed.

(** C8. When the iteration is exhausted, [start] completes, the stream is
    closed, and the close is the last call: the chunks written are the
    frames of the events and nothing follows the frame of the last one. *)
Theorem exhaustion_closes_without_sentinel (events : AsyncIter) :
  iter_end events = None ->
  let run := new_ReadableStream engine events in
  fst run = inl tt /\
  state (ctrl (snd run)) = Closed /\
  written (ctrl (snd run)) = map frame (yielded events) /\
  trace (snd run) = relay_steps (yielded events) ++ [Next Finished; Close].
Proof.
  intros Hend. rewrite (start_exhausted _ Hend). cbn. repeat split.
Qed.

(** C3. When the iteration throws after some events, [start] still
    completes instead of throwing; the chunks written are the frames of
    the events yielded before the fault and no other chunk, the fault is
    logged and the stream is put in the error state with it. *)
Theorem fault_errors_stream_without_envelope (events : AsyncIter) (e : thrown) :
  iter_end events = Some e ->
  let run := new_ReadableStream engine events in
  fst run = inl tt /\
  state (ctrl (snd run)) = Errored e /\
  written (ctrl (snd run)) = map frame (yielded events) /\
  trace (snd run) =
    relay_steps (yielded events) ++
    [Next (Threw e); ConsoleError (lit "Error in streaming loop:") e; Error e].
Proof.
  intros Hend. rewrite (start_faulted _ Hend). cbn. repeat split.
Qed.

End Relay.

Lemma exhaustion_closes_without_sentinel_witness :
  let events := iteration [Sample.delta; Sample.done] None in
  let run := new_ReadableStream Sample.engine events in
  iter_end events = None /\
  fst run = inl tt /\
  state (ctrl (snd run)) = Closed /\
  written (ctrl (snd run)) = map frame (yielded events) /\
  trace (snd run) = relay_steps (yielded events) ++ [Next Finished; Close].
Proof.
  split; [reflexivity|].
  apply (exhaustion_closes_without_sentinel Sample.engine
           (iteration [Sample.delta; Sample.done] None)).
  reflexivity.
Defined.

Lemma fault_errors_stream_without_envelope_witness :
  let events := iteration [Sample.delta] (Some Sample.fault) in
  let run := new_ReadableStream Sample.engine events in
  iter_end events = Some Sample.fault /\
  fst run = inl tt /\
  state (ctrl (snd run)) = Errored Sample.fault /\
  written (ctrl (snd run)) = [frame Sample.delta] /\
  trace (snd run) =
    relay_steps (yielded events) ++
    [Next (Threw Sample.fault);
     ConsoleError (lit "Error in streaming loop:") Sample.fault;
     Error Sample.fault].
Proof.
  split; [reflexivity|].
  apply (fault_errors_stream_without_envelope Sample.engine
           (iteration [Sample.delta] (Some Sample.fault))).
  reflexivity.
Defined.

(** ** The handler *)

Section Handler.

Variable engine : Engine.
Variable sdk : SDK.
Variable html : jstring.

Lemma serve_options (request : Request) (env : Env) :
  method request = "OPTIONS"%string ->
  serve engine sdk html request env =
    (inl {| status := 200; headers := corsHeaders; body := BodyNull |}, fresh_world).
Proof.
  intros Hm. unfold serve, fetch. rewrite Hm. reflexivity.
Qed.

Lemma serve_get (request : Request) (env : Env) :
  method request = "GET"%string ->
  serve engine sdk html request env =
    (inl {| status := 200;
            headers := ("Content-Type", "text/html")%string :: corsHeaders;
            body := BodyText html |}, fresh_world).
Proof.
  intros Hm. unfold serve, fetch. rewrite Hm. reflexivity.
Qed.

Lemma serve_not_found (request : Request) (env : Env) :
  method request = "POST"%string ->
  pathname (url request) <> "/api/turn_response"%string ->
  serve engine sdk html request env =
    (inl {| status := 404;
            headers := [("Content-Type", "text/plain;charset=UTF-8")%string];
            body := BodyText (lit "Not found") |}, fresh_world).
Proof.
  intros Hm Hp. unfold serve, fetch. rewrite Hm.
  apply String.eqb_neq in Hp. cbn [String.eqb Ascii.eqb Bool.eqb].
  rewrite Hp. reflexivity.
Qed.

Lemma serve_other_method (request : Request) (env : Env) :
  method request <> "OPTIONS"%string ->
  method request <> "GET"%string ->
  method request <> "POST"%string ->
  serve engine sdk html request env =
    (inl {| status := 405;
            headers := corsHeaders ++ [("Content-Type", "text/plain;charset=UTF-8")%string];
            body := BodyText (lit "Method not allowed") |}, fresh_world).
Proof.
  intros H1 H2 H3. unfold serve, fetch.
  apply String.eqb_neq in H1, H2, H3. rewrite H1, H2, H3. reflexivity.
Qed.

(** What a POST to the relay route comes to, case by case: the body does
    not parse; it is [null]; the client cannot be built; the upstream call
    is made and rejects; the upstream call is made and resolves. *)
Lemma serve_relay (request : Request) (env : Env) :
  method request = "POST"%string ->
  pathname (url request) = "/api/turn_response"%string ->
  serve engine sdk html request env =
    match JSON_parse (body_text request) with
    | None =>
        failed (ErrorObject (syntax_error_message engine (body_text request))) []
    | Some JNull => failed (ErrorObject (destructure_message engine)) []
    | Some requestData =>
        match sdk_construct sdk (OPENAI_API_KEY env) with
        | Some e => failed e []
        | None =>
            match sdk_create sdk {| apiKey := OPENAI_API_KEY env |}
                    (relay_params requestData) with
            | inr e => failed e [relay_params requestData]
            | inl events =>
                (inl (stream_response engine events),
                 {| console := []; upstream_calls := [relay_params requestData] |})
            end
        end
    end.
Proof.
  intros Hm Hp. unfold serve, fetch. rewrite Hm, Hp.
  cbn [String.eqb Ascii.eqb Bool.eqb negb].
  unfold try_catch, turn_response, request_json.
  destruct (JSON_parse (body_text request)) as [requestData|]; [|reflexivity].
  unfold bind at 1. unfold ret at 1.
  assert (Hgo : forall m t,
    (openai <- new_OpenAI sdk (OPENAI_API_KEY env);;
     events <- responses_create sdk openai
                 {| model := MODEL; input := m; tools := t;
                    stream := true; parallel_tool_calls := false |};;
     ret (new_Response (BodyStream (new_ReadableStream engine events))
            {| init_status := None;
               init_headers :=
                 [("Content-Type", "text/event-stream");
                  ("Cache-Control", "no-cache");
                  ("Connection", "keep-alive")]%string ++ corsHeaders |}))%js
      fresh_world =
    match sdk_construct sdk (OPENAI_API_KEY env) with
    | Some e => (inr e, fresh_world)
    | None =>
        let p := {| model := MODEL; input := m; tools := t;
                    stream := true; parallel_tool_calls := false |} in
        match sdk_create sdk {| apiKey := OPENAI_API_KEY env |} p with
        | inr e => (inr e, {| console := []; upstream_calls := [p] |})
        | inl events =>
            (inl (stream_response engine events),
             {| console := []; upstream_calls := [p] |})
        end
    end).
  { intros m t. unfold bind at 1. unfold new_OpenAI.
    destruct (sdk_construct sdk (OPENAI_API_KEY env)); [reflexivity|].
    unfold ret at 1. unfold bind at 1. unfold responses_create.
    unfold bind at 1. unfold modify at 1. unfold lift_result. cbn [console upstream_calls fresh_world app].
    destruct (sdk_create sdk _ _); reflexivity. }
  destruct requestData; unfold bind at 1; unfold destructure;
    unfold bind at 1; unfold lift_result at 1; cbn [get_property];
    try reflexivity;
    unfold bind at 1; unfold lift_result at 1; unfold ret at 1;
    rewrite Hgo; unfold relay_params, field;
    destruct (sdk_construct sdk (OPENAI_API_KEY env)); try reflexivity;
    cbv zeta; match goal with |- context [sdk_create ?a ?b ?c] =>
      destruct (sdk_create a b c) end; reflexivity.
Qed.

(** The handler always answers: no exception leaves [fetch]. *)
Lemma serve_responds (request : Request) (env : Env) :
  exists resp, fst (serve engine sdk html request env) = inl resp.
Proof.
  destruct (String.eqb_spec (method request) "OPTIONS") as [Ho|Ho].
  { rewrite (serve_options _ _ Ho). eexists; reflexivity. }
  destruct (String.eqb_spec (method request) "GET") as [Hg|Hg].
  { rewrite (serve_get _ _ Hg). eexists; reflexivity. }
  destruct (String.eqb_spec (method request) "POST") as [Hp|Hp].
  - destruct (String.eqb_spec (pathname (url request)) "/api/turn_response") as [Hr|Hr].
    + rewrite (serve_relay _ _ Hp Hr).
      destruct (JSON_parse (body_text request)) as [[]|];
        try (eexists; reflexivity);
        destruct (sdk_construct sdk (OPENAI_API_KEY env));
        try (eexists; reflexivity);
        match goal with |- context [sdk_create ?a ?b ?c] =>
          destruct (sdk_create a b c) end; eexists; reflexivity.
    + rewrite (serve_not_found _ _ Hp Hr). eexists; reflexivity.
  - rewrite (serve_other_method _ _ Ho Hg Hp). eexists; reflexivity.
Qed.

Lemma error_response_is_error (e : thrown) :
  is_error_response (error_response e) (error_message e).
Proof. repeat split. Qed.

Lemma error_response_has_cors (e : thrown) : has_cors (error_response e).
Proof. repeat split. Qed.

Lemma stream_response_has_cors (events : AsyncIter) :
  has_cors (stream_response engine events).
Proof. repeat split. Qed.

(** Every response but the 404 carries the CORS header set. *)
Lemma cors_on_every_other_response (request : Request) (env : Env) (resp : Response) :
  fst (serve engine sdk html request env) = inl resp ->
  status resp <> 404%N ->
  has_cors resp.
Proof.
  destruct (String.eqb_spec (method request) "OPTIONS") as [Ho|Ho].
  { rewrite (serve_options _ _ Ho). cbn [fst]. intros [= <-] _. repeat split. }
  destruct (String.eqb_spec (method request) "GET") as [Hg|Hg].
  { rewrite (serve_get _ _ Hg). cbn [fst]. intros [= <-] _. repeat split. }
  destruct (String.eqb_spec (method request) "POST") as [Hp|Hp].
  - destruct (String.eqb_spec (pathname (url request)) "/api/turn_response") as [Hr|Hr].
    + rewrite (serve_relay _ _ Hp Hr).
      destruct (JSON_parse (body_text request)) as [[]|];
        try (cbn [fst failed]; intros [= <-] _; apply error_response_has_cors);
        destruct (sdk_construct sdk (OPENAI_API_KEY env));
        try (cbn [fst failed]; intros [= <-] _; apply error_response_has_cors);
        match goal with |- context [sdk_create ?a ?b ?c] =>
          destruct (sdk_create a b c) end;
        cbn [fst failed]; intros [= <-] _;
        first [apply error_response_has_cors | apply stream_response_has_cors].
    + rewrite (serve_not_found _ _ Hp Hr). cbn [fst]. intros [= <-] Hs.
      exfalso. apply Hs. reflexivity.
  - rewrite (serve_other_method _ _ Ho Hg Hp). cbn [fst]. intros [= <-] _.
    repeat split.
Qed.

(** C5, on the code: a POST to a path other than the relay route is
    answered 404 with the header the text body brings and nothing else;
    the CORS header set is missing from this response, alone among all
    the handler returns (see [cors_on_every_other_response]). *)
Theorem not_found_lacks_cors (env : Env) (text : jstring) :
  exists resp,
    fst (serve engine sdk html (Sample.post "/api/unknown" text) env) = inl resp /\
    status resp = 404%N /\
    headers resp = [("Content-Type", "text/plain;charset=UTF-8")%string] /\
    get_header "Access-Control-Allow-Origin" (headers resp) = None /\
    ~ has_cors resp.
Proof.
  eexists. split.
  - rewrite serve_not_found; [reflexivity|reflexivity|discriminate].
  - cbn. repeat split. intros [H _]. discriminate H.
Qed.

(** C6, as the code has it: every request with method OPTIONS, whatever
    its path and body, is answered with the CORS header set and no body,
    under the default status 200; no upstream call is made. *)
Theorem options_preflight (request : Request) (env : Env) :
  method request = "OPTIONS"%string ->
  exists resp,
    serve engine sdk html request env = (inl resp, fresh_world) /\
    status resp = 200%N /\
    headers resp = corsHeaders /\
    has_cors resp /\
    body resp = BodyNull.
Proof.
  intros Hm. rewrite (serve_options _ _ Hm). eexists. repeat split.
Qed.

(** C4, as the code has it.  A POST to the relay route whose body is not
    JSON is answered 500 with the JSON text of [{ error: message }], the
    message being the parser's, and no upstream call is made.  A body that
    is an object without [messages] is not rejected: the upstream call is
    made with [input] undefined, and the answer is the error response
    only when building the client or the call itself throws; otherwise it
    is the event stream. *)
Theorem invalid_body_responses (request : Request) (env : Env) :
  method request = "POST"%string ->
  pathname (url request) = "/api/turn_response"%string ->
  (JSON_parse (body_text request) = None ->
   exists resp,
     fst (serve engine sdk html request env) = inl resp /\
     is_error_response resp (syntax_error_message engine (body_text request)) /\
     upstream_calls (snd (serve engine sdk html request env)) = []) /\
  (forall props,
     JSON_parse (body_text request) = Some (JObj props) ->
     get_own (lit "messages") props = undefined ->
     input (relay_params (JObj props)) = undefined /\
     match sdk_construct sdk (OPENAI_API_KEY env) with
     | Some e => serve engine sdk html request env = failed e []
     | None =>
         upstream_calls (snd (serve engine sdk html request env))
           = [relay_params (JObj props)] /\
         match sdk_create sdk {| apiKey := OPENAI_API_KEY env |}
                 (relay_params (JObj props)) with
         | inr e =>
             fst (serve engine sdk html request env) = inl (error_response e) /\
             is_error_response (error_response e) (error_message e)
         | inl events =>
             fst (serve engine sdk html request env)
               = inl (stream_response engine events)
         end
     end).
Proof.
  intros Hm Hp. rewrite (serve_relay _ _ Hm Hp). split.
  - intros Hparse. rewrite Hparse. eexists. split; [reflexivity|].
    split; [|reflexivity]. apply (error_response_is_error (ErrorObject _)).
  - intros props Hparse Hmsg. rewrite Hparse. split.
    + cbn. exact Hmsg.
    + destruct (sdk_construct sdk (OPENAI_API_KEY env)); [reflexivity|].
      destruct (sdk_create sdk _ _); cbn; repeat split.
Qed.

(** C9. For a POST to the relay route whose body is an object, once the
    client is built, exactly one upstream call is made, and its argument
    has the value under [messages] as [input] and the value under [tools]
    as [tools], both as parsed ([undefined] when absent), with the fixed
    model, [stream] true and [parallel_tool_calls] false.  Nothing looks
    at the messages: when the call resolves the answer is the event
    stream, also for an empty array. *)
Theorem upstream_call_forwards_request
    (request : Request) (env : Env) (props : list (jstring * json)) :
  method request = "POST"%string ->
  pathname (url request) = "/api/turn_response"%string ->
  JSON_parse (body_text request) = Some (JObj props) ->
  sdk_construct sdk (OPENAI_API_KEY env) = None ->
  let params :=
    {| model := MODEL;
       input := get_own (lit "messages") props;
       tools := get_own (lit "tools") props;
       stream := true;
       parallel_tool_calls := false |} in
  upstream_calls (snd (serve engine sdk html request env)) = [params] /\
  (forall events,
     sdk_create sdk {| apiKey := OPENAI_API_KEY env |} params = inl events ->
     fst (serve engine sdk html request env) = inl (stream_response engine events)).
Proof.
  intros Hm Hp Hparse Hkey params.
  rewrite (serve_relay _ _ Hm Hp), Hparse, Hkey.
  change (relay_params (JObj props)) with params.
  destruct (sdk_create sdk {| apiKey := OPENAI_API_KEY env |} params) as [events|e].
  - split; [reflexivity|]. intros events' [= <-]. reflexivity.
  - split; [reflexivity|]. intros events' [=].
Qed.

Lemma upstream_calls_model (request : Request) (env : Env) :
  Forall (fun p => model p = MODEL)
         (upstream_calls (snd (serve engine sdk html request env))).
Proof.
  destruct (String.eqb_spec (method request) "OPTIONS") as [Ho|Ho].
  { rewrite (serve_options _ _ Ho). constructor. }
  destruct (String.eqb_spec (method request) "GET") as [Hg|Hg].
  { rewrite (serve_get _ _ Hg). constructor. }
  destruct (String.eqb_spec (method request) "POST") as [Hp|Hp].
  - destruct (String.eqb_spec (pathname (url request)) "/api/turn_response") as [Hr|Hr].
    + rewrite (serve_relay _ _ Hp Hr).
      destruct (JSON_parse (body_text request)) as [[]|];
        try (constructor; fail);
        destruct (sdk_construct sdk (OPENAI_API_KEY env));
        try (constructor; fail);
        match goal with |- context [sdk_create ?a ?b ?c] =>
          destruct (sdk_create a b c) end;
        cbn; repeat constructor.
    + rewrite (serve_not_found _ _ Hp Hr). constructor.
  - rewrite (serve_other_method _ _ Ho Hg Hp). constructor.
Qed.

(** C10. Whatever the request, every upstream call it makes names the
    model of config/constants.ts, gpt-4.1-nano-2025-04-14; so the calls
    of any two requests name the same model. *)
Theorem upstream_model_is_constant
    (request request' : Request) (env env' : Env) :
  MODEL = lit "gpt-4.1-nano-2025-04-14" /\
  Forall (fun p => model p = lit "gpt-4.1-nano-2025-04-14")
         (upstream_calls (snd (serve engine sdk html request env))) /\
  Forall (fun p =>
            Forall (fun p' => model p = model p')
                   (upstream_calls (snd (serve engine sdk html request' env'))))
         (upstream_calls (snd (serve engine sdk html request env))).
Proof.
  split; [reflexivity|]. split.
  - exact (upstream_calls_model request env).
  - pose proof (upstream_calls_model request env) as H1.
    pose proof (upstream_calls_model request' env') as H2.
    rewrite Forall_forall in H1, H2.
    apply Forall_forall. intros p Hin. apply Forall_forall. intros p' Hin'.
    rewrite (H1 p Hin), (H2 p' Hin'). reflexivity.
Qed.

End Handler.

(** ** JSON text *)

(** The code units of the literals in the goal, computed. *)
Ltac eval_lit :=
  repeat match goal with
         | |- context [lit ?s] =>
             let t := eval vm_compute in (lit s) in change (lit s) with t
         end.

(** Induction over a list two elements at a time, for functions that look
    at the element after the head. *)
Lemma list_pair_ind (A : Type) (P : list A -> Prop) :
  P [] ->
  (forall a, P [a]) ->
  (forall a b l, P l -> P (b :: l) -> P (a :: b :: l)) ->
  forall l, P l.
Proof.
  intros Hnil Hone Hstep l.
  assert (H : P l /\ forall a, P (a :: l)).
  { induction l as [|b l [IH1 IH2]].
    - split; [exact Hnil | exact Hone].
    - split; [apply IH2 | intros a; apply Hstep; [exact IH1 | apply IH2]]. }
  exact (proj1 H).
Qed.

(** *** No control character in the output of [JSON.stringify] *)

Lemma printable_app (a b : jstring) : printable a -> printable b -> printable (a ++ b).
Proof. intros Ha Hb. apply Forall_app. split; assumption. Qed.

Lemma printable_cons (c : N) (s : jstring) :
  (32 <= c)%N -> printable s -> printable (c :: s).
Proof. intros Hc Hs. constructor; assumption. Qed.

Lemma hex_digit_printable (d : N) : (32 <= hex_digit d)%N.
Proof. unfold hex_digit. destruct (d <? 10)%N; lia. Qed.

Lemma UnicodeEscape_printable (c : N) : printable (UnicodeEscape c).
Proof.
  unfold UnicodeEscape, cBackslash.
  repeat (apply printable_cons; [first [apply hex_digit_printable | lia]|]).
  constructor.
Qed.

Lemma short_escape_printable (c e : N) : short_escape c = Some e -> (32 <= e)%N.
Proof.
  unfold short_escape.
  repeat match goal with
         | |- context [if ?b then _ else _] => destruct b
         end; intros [= <-]; lia.
Qed.

Lemma quote_units_printable (s : jstring) : printable (quote_units s).
Proof.
  induction s as [|a|a b l IH1 IH2] using list_pair_ind.
  - constructor.
  - cbn [quote_units].
    destruct (short_escape a) as [e|] eqn:He.
    { apply short_escape_printable in He.
      repeat (apply printable_cons; [unfold cBackslash; lia|]). constructor. }
    destruct (a <? 32)%N eqn:Hlow.
    { apply printable_app; [apply UnicodeEscape_printable | constructor]. }
    apply N.ltb_ge in Hlow.
    destruct (is_leading_surrogate a); [apply UnicodeEscape_printable|].
    destruct (is_trailing_surrogate a).
    { apply printable_app; [apply UnicodeEscape_printable | constructor]. }
    apply printable_cons; [exact Hlow | constructor].
  - change (quote_units (a :: b :: l)) with
      (match short_escape a with
       | Some e => cBackslash :: e :: quote_units (b :: l)
       | None =>
           if (a <? 32)%N then UnicodeEscape a ++ quote_units (b :: l)
           else if is_leading_surrogate a then
             if is_trailing_surrogate b then a :: b :: quote_units l
             else UnicodeEscape a ++ quote_units (b :: l)
           else if is_trailing_surrogate a then UnicodeEscape a ++ quote_units (b :: l)
           else a :: quote_units (b :: l)
       end).
    destruct (short_escape a) as [e|] eqn:He.
    { apply short_escape_printable in He.
      repeat (apply printable_cons; [unfold cBackslash; lia|]). exact IH2. }
    destruct (a <? 32)%N eqn:Hlow.
    { apply printable_app; [apply UnicodeEscape_printable | exact IH2]. }
    apply N.ltb_ge in Hlow.
    destruct (is_leading_surrogate a).
    { destruct (is_trailing_surrogate b) eqn:Hb.
      - unfold is_trailing_surrogate in Hb. apply andb_prop in Hb as [Hb _].
        apply N.leb_le in Hb.
        repeat (apply printable_cons; [lia|]). exact IH1.
      - apply printable_app; [apply UnicodeEscape_printable | exact IH2]. }
    destruct (is_trailing_surrogate a).
    { apply printable_app; [apply UnicodeEscape_printable | exact IH2]. }
    apply printable_cons; [exact Hlow | exact IH2].
Qed.

Lemma QuoteJSONString_printable (s : jstring) : printable (QuoteJSONString s).
Proof.
  unfold QuoteJSONString. apply printable_cons; [unfold cQuote; lia|].
  apply printable_app; [apply quote_units_printable|].
  apply printable_cons; [unfold cQuote; lia | constructor].
Qed.

Lemma uint_units_printable (d : Decimal.uint) : printable (uint_units d).
Proof.
  induction d; cbn [uint_units]; try constructor; try lia; assumption.
Qed.

Lemma digit_units_printable (s : list N) : printable (digit_units s).
Proof.
  induction s as [|d s IH]; [constructor|].
  apply printable_cons; [unfold digit_unit; lia | exact IH].
Qed.

Lemma zeros_printable (n : nat) : printable (zeros n).
Proof.
  induction n as [|n IH]; [constructor|].
  apply printable_cons; [unfold cZero; lia | exact IH].
Qed.

Lemma number_body_printable (s : list N) (n : Z) : printable (number_body s n).
Proof.
  unfold number_body.
  assert (Htail : forall e : Z,
             printable (101%N :: (if (e <? 0)%Z then cMinus else cPlus)
                               :: decimal_units (Z.abs_N e))).
  { intros e. apply printable_cons; [lia|].
    apply printable_cons; [destruct (e <? 0)%Z; unfold cMinus, cPlus; lia|].
    apply uint_units_printable. }
  destruct ((Z.of_nat (length s) <=? n)%Z && (n <=? 21)%Z).
  { apply printable_app; [apply digit_units_printable | apply zeros_printable]. }
  destruct ((0 <? n)%Z && (n <=? 21)%Z).
  { apply printable_app; [apply digit_units_printable|].
    apply printable_cons; [unfold cDot; lia | apply digit_units_printable]. }
  destruct ((-6 <? n)%Z && (n <=? 0)%Z).
  { repeat (apply printable_cons; [unfold cZero, cDot; lia|]).
    apply printable_app; [apply zeros_printable | apply digit_units_printable]. }
  destruct s as [|d [|d' r]].
  - apply Htail.
  - apply printable_cons; [unfold digit_unit; lia | apply Htail].
  - apply printable_cons; [unfold digit_unit; lia|].
    apply printable_cons; [unfold cDot; lia|].
    apply printable_app; [apply digit_units_printable | apply Htail].
Qed.

Lemma Number_toString_printable (x : number) : printable (Number_toString x).
Proof.
  destruct x as [|neg s n].
  { apply printable_cons; [unfold cZero; lia | constructor]. }
  cbn [Number_toString]. destruct neg; [apply printable_cons; [unfold cMinus; lia|]|];
    apply number_body_printable.
Qed.

Lemma join_comma_printable (l : list jstring) :
  Forall printable l -> printable (join_comma l).
Proof.
  induction 1 as [|x t Hx Ht IH]; [constructor|].
  destruct t as [|y t]; [exact Hx|].
  change (join_comma (x :: y :: t)) with (x ++ cComma :: join_comma (y :: t)).
  apply printable_app; [exact Hx|].
  apply printable_cons; [unfold cComma; lia | exact IH].
Qed.

(** The JSON text of any value holds no control character. *)
Lemma JSON_stringify_printable (v : json) : printable (JSON_stringify v).
Proof.
  induction v as [|b|x|s|l IH|ps IH] using json_nested_ind.
  - unfold printable. cbn [JSON_stringify]. eval_lit.
    repeat (apply Forall_cons; [lia|]). apply Forall_nil.
  - unfold printable. destruct b; cbn [JSON_stringify]; eval_lit;
      repeat (apply Forall_cons; [lia|]); apply Forall_nil.
  - apply Number_toString_printable.
  - apply QuoteJSONString_printable.
  - cbn [JSON_stringify]. apply printable_cons; [unfold cLBracket; lia|].
    apply printable_app.
    + apply join_comma_printable. apply Forall_map. exact IH.
    + apply printable_cons; [unfold cRBracket; lia | constructor].
  - cbn [JSON_stringify]. apply printable_cons; [unfold cLBrace; lia|].
    apply printable_app.
    + apply join_comma_printable. apply Forall_map.
      apply Forall_impl with (2 := IH). intros [k v] Hv.
      apply printable_app; [apply QuoteJSONString_printable|].
      apply printable_cons; [unfold cColon; lia | exact Hv].
    + apply printable_cons; [unfold cRBrace; lia | constructor].
Qed.

Lemma printable_no_newline (s : jstring) : printable s -> ~ In cNewline s.
Proof.
  intros Hs Hin. unfold printable in Hs. rewrite Forall_forall in Hs.
  specialize (Hs _ Hin). unfold cNewline in Hs. lia.
Qed.

(** *** Strings are read back *)

Lemma hex_value_hex_digit (d : N) : (d < 16)%N -> hex_value (hex_digit d) = Some d.
Proof.
  intros Hd.
  assert (H : (d = 0 \/ d = 1 \/ d = 2 \/ d = 3 \/ d = 4 \/ d = 5 \/ d = 6 \/ d = 7 \/
               d = 8 \/ d = 9 \/ d = 10 \/ d = 11 \/ d = 12 \/ d = 13 \/ d = 14 \/
               d = 15)%N) by lia.
  repeat (destruct H as [H|H]; [subst d; reflexivity|]). subst d. reflexivity.
Qed.

Lemma hex4_value_UnicodeEscape (c : N) :
  (c < 65536)%N ->
  hex4_value (hex_digit ((c / 4096) mod 16)) (hex_digit ((c / 256) mod 16))
             (hex_digit ((c / 16) mod 16)) (hex_digit (c mod 16)) = Some c.
Proof.
  intros Hc. unfold hex4_value.
  rewrite !hex_value_hex_digit by (apply N.mod_lt; discriminate).
  f_equal.
  pose proof (N.div_mod c 16 ltac:(discriminate)) as H0.
  pose proof (N.div_mod (c / 16) 16 ltac:(discriminate)) as H1.
  pose proof (N.div_mod (c / 256) 16 ltac:(discriminate)) as H2.
  assert (E1 : (c / 16 / 16 = c / 256)%N) by (rewrite N.Div0.div_div; reflexivity).
  assert (E2 : (c / 256 / 16 = c / 4096)%N) by (rewrite N.Div0.div_div; reflexivity).
  rewrite E1 in H1. rewrite E2 in H2.
  assert (H3 : (c / 4096 < 16)%N) by (apply N.Div0.div_lt_upper_bound; lia).
  rewrite (N.mod_small (c / 4096) 16 H3).
  pose proof (N.mod_lt c 16 ltac:(discriminate)).
  pose proof (N.mod_lt (c / 16) 16 ltac:(discriminate)).
  pose proof (N.mod_lt (c / 256) 16 ltac:(discriminate)).
  lia.
Qed.

Lemma short_escape_unescape (c e : N) :
  short_escape c = Some e -> unescape e = Some c /\ e <> 117%N.
Proof.
  unfold short_escape.
  repeat match goal with
         | |- context [if (?a =? ?b)%N then _ else _] =>
             destruct (N.eqb_spec a b)
         end; intros [= <-]; subst c; split; (reflexivity || discriminate).
Qed.

Lemma short_escape_none (c : N) :
  short_escape c = None -> c <> cQuote /\ c <> cBackslash.
Proof.
  unfold short_escape, cQuote, cBackslash.
  repeat match goal with
         | |- context [if (?a =? ?b)%N then _ else _] =>
             destruct (N.eqb_spec a b)
         end; intros [=]; split; assumption.
Qed.

Lemma parse_string_body_plain (c : N) (t : jstring) :
  c <> cQuote -> c <> cBackslash -> (32 <= c)%N ->
  parse_string_body (c :: t) =
    match parse_string_body t with
    | Some (str, r) => Some (c :: str, r)
    | None => None
    end.
Proof.
  intros Hq Hb Hc. cbn [parse_string_body].
  apply N.eqb_neq in Hq, Hb. rewrite Hq, Hb.
  apply N.ltb_ge in Hc. rewrite Hc. reflexivity.
Qed.

Lemma parse_string_body_short (e u : N) (t : jstring) :
  unescape e = Some u -> e <> 117%N ->
  parse_string_body (cBackslash :: e :: t) =
    match parse_string_body t with
    | Some (str, r) => Some (u :: str, r)
    | None => None
    end.
Proof.
  intros Hu He. cbn [parse_string_body].
  change (cBackslash =? cQuote)%N with false.
  change (cBackslash =? cBackslash)%N with true. cbv iota.
  apply N.eqb_neq in He. rewrite He, Hu. reflexivity.
Qed.

Lemma parse_string_body_unicode (c : N) (t : jstring) :
  (c < 65536)%N ->
  parse_string_body (UnicodeEscape c ++ t) =
    match parse_string_body t with
    | Some (str, r) => Some (c :: str, r)
    | None => None
    end.
Proof.
  intros Hc. unfold UnicodeEscape. cbn [app parse_string_body].
  change (cBackslash =? cQuote)%N with false.
  change (cBackslash =? cBackslash)%N with true.
  change (117 =? 117)%N with true. cbv iota.
  rewrite (hex4_value_UnicodeEscape Hc). reflexivity.
Qed.

(** Reading a quoted string back gives the string and stops after the
    closing quote. *)
Lemma parse_string_body_quote_units (s rest : jstring) :
  parse_string_body (quote_units s ++ cQuote :: rest) = Some (s, rest).
Proof.
  assert (Hq : parse_string_body (cQuote :: rest) = Some ([], rest))
    by reflexivity.
  induction s as [|a|a b l IH1 IH2] using list_pair_ind.
  - exact Hq.
  - cbn [quote_units].
    destruct (short_escape a) as [e|] eqn:He.
    { apply short_escape_unescape in He as [Hu Hne].
      cbn [app]. rewrite (parse_string_body_short _ Hu Hne), Hq. reflexivity. }
    apply short_escape_none in He as [Hnq Hnb].
    destruct (a <? 32)%N eqn:Hlow.
    { apply N.ltb_lt in Hlow. rewrite <- app_assoc. cbn [app].
      rewrite parse_string_body_unicode by lia. rewrite Hq. reflexivity. }
    apply N.ltb_ge in Hlow.
    destruct (is_leading_surrogate a) eqn:Hlead.
    { unfold is_leading_surrogate in Hlead. apply andb_prop in Hlead as [_ Hup].
      apply N.leb_le in Hup.
      rewrite parse_string_body_unicode by lia. rewrite Hq. reflexivity. }
    destruct (is_trailing_surrogate a) eqn:Htrail.
    { unfold is_trailing_surrogate in Htrail. apply andb_prop in Htrail as [_ Hup].
      apply N.leb_le in Hup. rewrite <- app_assoc. cbn [app].
      rewrite parse_string_body_unicode by lia. rewrite Hq. reflexivity. }
    cbn [app]. rewrite (parse_string_body_plain _ Hnq Hnb Hlow), Hq. reflexivity.
  - change (quote_units (a :: b :: l)) with
      (match short_escape a with
       | Some e => cBackslash :: e :: quote_units (b :: l)
       | None =>
           if (a <? 32)%N then UnicodeEscape a ++ quote_units (b :: l)
           else if is_leading_surrogate a then
             if is_trailing_surrogate b then a :: b :: quote_units l
             else UnicodeEscape a ++ quote_units (b :: l)
           else if is_trailing_surrogate a then UnicodeEscape a ++ quote_units (b :: l)
           else a :: quote_units (b :: l)
       end).
    destruct (short_escape a) as [e|] eqn:He.
    { apply short_escape_unescape in He as [Hu Hne].
      cbn [app]. rewrite (parse_string_body_short _ Hu Hne), IH2. reflexivity. }
    apply short_escape_none in He as [Hnq Hnb].
    destruct (a <? 32)%N eqn:Hlow.
    { apply N.ltb_lt in Hlow. rewrite <- app_assoc.
      rewrite parse_string_body_unicode by lia. rewrite IH2. reflexivity. }
    apply N.ltb_ge in Hlow.
    destruct (is_leading_surrogate a) eqn:Hlead.
    { unfold is_leading_surrogate in Hlead. apply andb_prop in Hlead as [_ Hup].
      apply N.leb_le in Hup.
      destruct (is_trailing_surrogate b) eqn:Hb.
      - unfold is_trailing_surrogate in Hb. apply andb_prop in Hb as [Hb _].
        apply N.leb_le in Hb. cbn [app].
        rewrite (parse_string_body_plain _ Hnq Hnb Hlow).
        rewrite parse_string_body_plain by (unfold cQuote, cBackslash; lia).
        rewrite IH1. reflexivity.
      - rewrite <- app_assoc.
        rewrite parse_string_body_unicode by lia. rewrite IH2. reflexivity. }
    destruct (is_trailing_surrogate a) eqn:Htrail.
    { unfold is_trailing_surrogate in Htrail. apply andb_prop in Htrail as [_ Hup].
      apply N.leb_le in Hup. rewrite <- app_assoc.
      rewrite parse_string_body_unicode by lia. rewrite IH2. reflexivity. }
    cbn [app]. rewrite (parse_string_body_plain _ Hnq Hnb Hlow), IH2. reflexivity.
Qed.

(** *** Objects are rebuilt in their own order *)

Lemma wf_keys_app (a b : list jstring) :
  wf_keys (a ++ b) = true ->
  wf_keys b = true /\
  forall x, In x a -> forall y, In y b -> may_follow x y = true.
Proof.
  induction a as [|k a IH]; cbn [app wf_keys].
  - intros H. split; [exact H | intros x []].
  - intros H. apply andb_prop in H as [Hk Hrest].
    destruct (IH Hrest) as [Hb Hab]. split; [exact Hb|].
    intros x [<-|Hx] y Hy.
    + rewrite forallb_app in Hk. apply andb_prop in Hk as [_ Hk].
      rewrite forallb_forall in Hk. apply Hk, Hy.
    + apply Hab; assumption.
Qed.

Lemma get_own_absent (k : jstring) (o : list (jstring * json)) :
  (forall kv, In kv o -> jstring_eqb k (fst kv) = false) ->
  get_own k o = undefined.
Proof.
  induction o as [|[k' v'] o IH]; intros H; [reflexivity|].
  cbn [get_own]. pose proof (H (k', v') (or_introl eq_refl)) as Hk.
  cbn [fst] in Hk. rewrite Hk.
  apply IH. intros kv Hin. apply H. right. exact Hin.
Qed.

Lemma insert_index_last (i : N) (kv : jstring * json) (o : list (jstring * json)) :
  (forall kv', In kv' o ->
     exists j, is_array_index (fst kv') = Some j /\ (j < i)%N) ->
  insert_index i kv o = o ++ [kv].
Proof.
  induction o as [|kv' o IH]; intros H; [reflexivity|].
  cbn [insert_index app].
  destruct (H kv' (or_introl eq_refl)) as [j [Hj Hlt]].
  rewrite Hj. apply N.ltb_lt in Hlt. rewrite Hlt.
  f_equal. apply IH. intros kv'' Hin. apply H. right. exact Hin.
Qed.

Lemma may_follow_distinct (k k' : jstring) :
  may_follow k k' = true -> jstring_eqb k' k = false.
Proof.
  unfold may_follow. intros H. apply andb_prop in H as [H _].
  apply negb_true_iff in H. apply jstring_eqb_neq. intros ->.
  rewrite jstring_eqb_refl in H. discriminate.
Qed.

(** A property whose key may follow all the keys of the object goes to
    its end. *)
Lemma obj_define_last (o : list (jstring * json)) (k : jstring) (v : json) :
  (forall kv', In kv' o -> may_follow (fst kv') k = true) ->
  obj_define o (k, v) = o ++ [(k, v)].
Proof.
  intros H. unfold obj_define.
  rewrite get_own_absent
    by (intros kv' Hin; apply may_follow_distinct, H, Hin).
  unfold undefined.
  destruct (is_array_index k) as [i|] eqn:Hi; [|reflexivity].
  apply insert_index_last. intros kv' Hin.
  specialize (H kv' Hin). unfold may_follow in H. rewrite Hi in H.
  apply andb_prop in H as [_ H].
  destruct (is_array_index (fst kv')) as [j|]; [|discriminate].
  exists j. split; [reflexivity | apply N.ltb_lt, H].
Qed.

Lemma fold_obj_define_wf (rest acc : list (jstring * json)) :
  wf_keys (map fst (acc ++ rest)) = true ->
  fold_left obj_define rest acc = acc ++ rest.
Proof.
  revert acc. induction rest as [|[k v] rest IH]; intros acc Hwf.
  - cbn. rewrite app_nil_r. reflexivity.
  - cbn [fold_left].
    assert (Hlast : obj_define acc (k, v) = acc ++ [(k, v)]).
    { apply obj_define_last. intros kv' Hin.
      rewrite map_app in Hwf. apply wf_keys_app in Hwf as [_ Hwf].
      apply Hwf; [apply in_map, Hin | left; reflexivity]. }
    rewrite Hlast, IH; rewrite <- app_assoc; [reflexivity | exact Hwf].
Qed.

(** The members of a well-formed object, defined one after the other on
    an empty object, give the object back. *)
Lemma build_object_wf (ps : list (jstring * json)) :
  wf_keys (map fst ps) = true -> build_object ps = ps.
Proof. intros H. apply (fold_obj_define_wf ps [] H). Qed.

(** *** Numbers are read back *)

Lemma span_digits_stop (rest : jstring) :
  no_digit_ahead rest -> span_digits rest = ([], rest).
Proof.
  destruct rest as [|c r]; [reflexivity|]. cbn. intros ->. reflexivity.
Qed.

Lemma span_digits_digit_units (s : list N) (rest : jstring) :
  forallb (fun d => (d <? 10)%N) s = true ->
  no_digit_ahead rest ->
  span_digits (digit_units s ++ rest) = (s, rest).
Proof.
  intros Hs Hrest. induction s as [|d s IH].
  - apply span_digits_stop, Hrest.
  - cbn [forallb] in Hs. apply andb_prop in Hs as [Hd Hs].
    apply N.ltb_lt in Hd. cbn [digit_units map app span_digits].
    fold (digit_units s). rewrite (IH Hs).
    assert (Hdig : is_digit (digit_unit d) = true).
    { unfold is_digit, digit_unit. apply andb_true_intro.
      split; apply N.leb_le; lia. }
    rewrite Hdig. f_equal. f_equal. unfold digit_unit. lia.
Qed.

Lemma zeros_digit_units (n : nat) : zeros n = digit_units (repeat 0%N n).
Proof.
  induction n as [|n IH]; [reflexivity|].
  cbn [zeros repeat digit_units map]. f_equal. exact IH.
Qed.

Lemma forallb_repeat_zero (n : nat) :
  forallb (fun d => (d <? 10)%N) (repeat 0%N n) = true.
Proof. induction n as [|n IH]; [reflexivity | exact IH]. Qed.

Lemma span_digits_uint_units (u : Decimal.uint) (rest : jstring) :
  no_digit_ahead rest ->
  exists ds, span_digits (uint_units u ++ rest) = (ds, rest) /\
             digits_uint ds = u /\ (u <> Decimal.Nil -> ds <> []).
Proof.
  intros Hrest. induction u as [|u [ds [Hs [Hu Hne]]]|u [ds [Hs [Hu Hne]]]
    |u [ds [Hs [Hu Hne]]]|u [ds [Hs [Hu Hne]]]|u [ds [Hs [Hu Hne]]]
    |u [ds [Hs [Hu Hne]]]|u [ds [Hs [Hu Hne]]]|u [ds [Hs [Hu Hne]]]
    |u [ds [Hs [Hu Hne]]]|u [ds [Hs [Hu Hne]]]].
  - exists []. split; [apply span_digits_stop, Hrest|]. split; [reflexivity|].
    intros H; exfalso; apply H; reflexivity.
  - exists (0 :: ds)%N. cbn [uint_units app span_digits]. rewrite Hs.
    split; [reflexivity|]. split; [cbn; rewrite Hu; reflexivity | discriminate].
  - exists (1 :: ds)%N. cbn [uint_units app span_digits]. rewrite Hs.
    split; [reflexivity|]. split; [cbn; rewrite Hu; reflexivity | discriminate].
  - exists (2 :: ds)%N. cbn [uint_units app span_digits]. rewrite Hs.
    split; [reflexivity|]. split; [cbn; rewrite Hu; reflexivity | discriminate].
  - exists (3 :: ds)%N. cbn [uint_units app span_digits]. rewrite Hs.
    split; [reflexivity|]. split; [cbn; rewrite Hu; reflexivity | discriminate].
  - exists (4 :: ds)%N. cbn [uint_units app span_digits]. rewrite Hs.
    split; [reflexivity|]. split; [cbn; rewrite Hu; reflexivity | discriminate].
  - exists (5 :: ds)%N. cbn [uint_units app span_digits]. rewrite Hs.
    split; [reflexivity|]. split; [cbn; rewrite Hu; reflexivity | discriminate].
  - exists (6 :: ds)%N. cbn [uint_units app span_digits]. rewrite Hs.
    split; [reflexivity|]. split; [cbn; rewrite Hu; reflexivity | discriminate].
  - exists (7 :: ds)%N. cbn [uint_units app span_digits]. rewrite Hs.
    split; [reflexivity|]. split; [cbn; rewrite Hu; reflexivity | discriminate].
  - exists (8 :: ds)%N. cbn [uint_units app span_digits]. rewrite Hs.
    split; [reflexivity|]. split; [cbn; rewrite Hu; reflexivity | discriminate].
  - exists (9 :: ds)%N. cbn [uint_units app span_digits]. rewrite Hs.
    split; [reflexivity|]. split; [cbn; rewrite Hu; reflexivity | discriminate].
Qed.

Lemma N_to_uint_nonnil (n : N) : N.to_uint n <> Decimal.Nil.
Proof.
  destruct n as [|p]; [discriminate|]. apply DecimalPos.Unsigned.to_uint_nonnil.
Qed.

Lemma strip_leading_zeros_repeat (pre : nat) (d : N) (t : list N) :
  d <> 0%N ->
  strip_leading_zeros (repeat 0%N pre ++ d :: t) = (pre, d :: t).
Proof.
  intros Hd. induction pre as [|pre IH].
  - cbn. apply N.eqb_neq in Hd. rewrite Hd. reflexivity.
  - cbn [repeat app strip_leading_zeros]. rewrite IH. reflexivity.
Qed.

Lemma strip_trailing_zeros_zeros (post : nat) :
  strip_trailing_zeros (repeat 0%N post) = [].
Proof.
  induction post as [|post IH]; [reflexivity|].
  cbn [repeat strip_trailing_zeros]. rewrite IH. reflexivity.
Qed.

Lemma strip_trailing_zeros_repeat (s : list N) (post : nat) :
  s <> [] -> last s 1%N <> 0%N ->
  strip_trailing_zeros (s ++ repeat 0%N post) = s.
Proof.
  induction s as [|d s IH]; intros Hne Hlast; [congruence|].
  destruct s as [|d' s].
  - cbn [app strip_trailing_zeros]. rewrite strip_trailing_zeros_zeros.
    cbn in Hlast. apply N.eqb_neq in Hlast. rewrite Hlast. reflexivity.
  - change ((d :: d' :: s) ++ repeat 0%N post)
      with (d :: ((d' :: s) ++ repeat 0%N post)).
    cbn [strip_trailing_zeros]. rewrite IH; [reflexivity | discriminate | exact Hlast].
Qed.

(** The digits around a canonical significand, whichever way they are
    split between integer part and fraction, denote the Number with that
    significand. *)
Lemma make_number_canonical (neg : bool) (d : N) (t : list N) (n : Z)
    (ip fp : list N) (ex : Z) (pre post : nat) :
  d <> 0%N -> last (d :: t) 1%N <> 0%N ->
  ip ++ fp = repeat 0%N pre ++ (d :: t) ++ repeat 0%N post ->
  (Z.of_nat (length ip) + ex - Z.of_nat pre = n)%Z ->
  make_number neg ip fp ex = NumFinite neg (d :: t) n.
Proof.
  intros Hd Hlast Hsplit Hn. unfold make_number. rewrite Hsplit.
  change ((d :: t) ++ repeat 0%N post) with (d :: (t ++ repeat 0%N post)).
  rewrite (strip_leading_zeros_repeat _ _ Hd).
  change (d :: (t ++ repeat 0%N post)) with ((d :: t) ++ repeat 0%N post).
  rewrite strip_trailing_zeros_repeat by (discriminate || exact Hlast).
  rewrite Hn. reflexivity.
Qed.

Lemma parse_frac_absent (rest : jstring) :
  number_end rest = true -> parse_frac rest = Some ([], rest).
Proof.
  destruct rest as [|c r]; [reflexivity|]. cbn [number_end parse_frac].
  intros H. apply andb_prop in H as [H _]. apply andb_prop in H as [H _].
  apply andb_prop in H as [_ H]. apply negb_true_iff in H. rewrite H. reflexivity.
Qed.

Lemma parse_exp_absent (rest : jstring) :
  number_end rest = true -> parse_exp rest = Some (0%Z, rest).
Proof.
  destruct rest as [|c r]; [reflexivity|]. cbn [number_end parse_exp].
  intros H. apply andb_prop in H as [H H69]. apply andb_prop in H as [_ H101].
  apply negb_true_iff in H69, H101. rewrite H69, H101. reflexivity.
Qed.

Lemma number_end_no_digit (rest : jstring) :
  number_end rest = true -> no_digit_ahead rest.
Proof.
  destruct rest as [|c r]; [exact (fun _ => Logic.I)|]. cbn [number_end no_digit_ahead].
  intros H. repeat (apply andb_prop in H as [H _]).
  apply negb_true_iff in H. exact H.
Qed.

(** The exponent part that [Number::toString] writes is read back. *)
Lemma parse_exp_written (e : Z) (rest : jstring) :
  no_digit_ahead rest ->
  parse_exp (101%N :: (if (e <? 0)%Z then cMinus else cPlus)
                   :: decimal_units (Z.abs_N e) ++ rest) = Some (e, rest).
Proof.
  intros Hrest. unfold decimal_units.
  destruct (span_digits_uint_units (N.to_uint (Z.abs_N e)) rest Hrest)
    as [ds [Hs [Hu Hne]]].
  specialize (Hne (N_to_uint_nonnil _)).
  assert (Hv : digits_value ds = Z.abs_N e).
  { unfold digits_value. rewrite Hu. apply DecimalN.Unsigned.of_to. }
  cbn [parse_exp]. change ((101 =? 101)%N || (101 =? 69)%N) with true. cbv iota.
  destruct (e <? 0)%Z eqn:He.
  - change (cMinus =? cMinus)%N with true. cbv iota. rewrite Hs.
    destruct ds as [|x ds]; [congruence|]. rewrite Hv. f_equal. f_equal.
    apply Z.ltb_lt in He. rewrite N2Z.inj_abs_N. lia.
  - change (cPlus =? cMinus)%N with false. change (cPlus =? cPlus)%N with true.
    cbv iota. rewrite Hs.
    destruct ds as [|x ds]; [congruence|]. rewrite Hv. f_equal. f_equal.
    apply Z.ltb_ge in He. rewrite N2Z.inj_abs_N. lia.
Qed.

Lemma wf_number_finite (neg : bool) (s : list N) (n : Z) :
  wf_number (NumFinite neg s n) = true ->
  exists d t, s = d :: t /\ d <> 0%N /\ last s 1%N <> 0%N /\
              forallb (fun d => (d <? 10)%N) s = true.
Proof.
  unfold wf_number. intros H. rewrite !andb_true_iff in H.
  destruct H as [[Hhd Hlast] Hall].
  destruct s as [|d t]; [discriminate|]. exists d, t.
  apply negb_true_iff in Hhd, Hlast. apply N.eqb_neq in Hhd, Hlast.
  repeat split; assumption.
Qed.

Lemma is_digit_digit_unit (d : N) : (d <? 10)%N = true -> is_digit (digit_unit d) = true.
Proof.
  intros Hd. apply N.ltb_lt in Hd. unfold is_digit, digit_unit.
  apply andb_true_intro. split; apply N.leb_le; lia.
Qed.

Lemma int_part_ok (d : N) (l : list N) :
  d <> 0%N ->
  match l with
  | _ :: _ => negb (d =? 0)%N
  | [] => true
  end = true.
Proof.
  intros Hd. apply N.eqb_neq in Hd. destruct l; [reflexivity|]. rewrite Hd. reflexivity.
Qed.

(** What [Number::toString] writes for a Number is read back as that
    Number, up to where the number ends. *)
Lemma parse_unsigned_number_body (neg : bool) (s : list N) (n : Z) (rest : jstring) :
  wf_number (NumFinite neg s n) = true ->
  number_end rest = true ->
  parse_unsigned neg (number_body s n ++ rest) = Some (NumFinite neg s n, rest).
Proof.
  intros Hwf Hend.
  destruct (wf_number_finite _ _ _ Hwf) as [d [t [-> [Hd [Hlast Hall]]]]].
  pose proof (number_end_no_digit _ Hend) as Hnd.
  unfold number_body.
  set (k := Z.of_nat (length (d :: t))).
  assert (Hk : (0 < k)%Z) by (unfold k; cbn [length]; lia).
  destruct ((k <=? n)%Z && (n <=? 21)%Z) eqn:C1.
  { (* an integer: the digits, then zeros *)
    apply andb_prop in C1 as [Hkn _]. apply Z.leb_le in Hkn.
    rewrite zeros_digit_units. unfold digit_units. rewrite <- map_app.
    fold (digit_units ((d :: t) ++ repeat 0%N (Z.to_nat (n - k)))).
    unfold parse_unsigned.
    rewrite span_digits_digit_units;
      [|rewrite forallb_app, Hall; apply forallb_repeat_zero | exact Hnd].
    change ((d :: t) ++ repeat 0%N (Z.to_nat (n - k)))
      with (d :: (t ++ repeat 0%N (Z.to_nat (n - k)))).
    cbv beta iota zeta. rewrite (int_part_ok _ Hd).
    rewrite (parse_frac_absent _ Hend), (parse_exp_absent _ Hend).
    f_equal. f_equal.
    apply make_number_canonical with (pre := O) (post := Z.to_nat (n - k));
      [exact Hd | exact Hlast | rewrite app_nil_r; reflexivity |].
    cbn [length]. rewrite length_app, repeat_length.
    unfold k in *. cbn [length] in *. lia. }
  destruct ((0 <? n)%Z && (n <=? 21)%Z) eqn:C2.
  { (* digits on both sides of the point *)
    apply andb_prop in C2 as [Hn0 Hn21]. apply Z.ltb_lt in Hn0. apply Z.leb_le in Hn21.
    assert (Hnk : (n < k)%Z).
    { apply andb_false_iff in C1 as [C1|C1];
        [apply Z.leb_gt in C1; exact C1 | apply Z.leb_gt in C1; lia]. }
    remember (Z.to_nat n) as p eqn:Hpn.
    assert (Hp : (0 < p < length (d :: t))%nat) by (unfold k in *; lia).
    pose proof (firstn_skipn p (d :: t)) as Hsplit.
    assert (Hall2 := Hall). rewrite <- Hsplit, forallb_app in Hall2.
    apply andb_prop in Hall2 as [Hall_f Hall_s].
    unfold parse_unsigned. rewrite <- app_assoc, <- app_comm_cons.
    rewrite span_digits_digit_units;
      [|exact Hall_f | reflexivity].
    destruct p as [|p']; [lia|]. cbn [firstn].
    cbv beta iota zeta. rewrite (int_part_ok _ Hd).
    cbn [parse_frac]. change (cDot =? cDot)%N with true. cbv iota.
    rewrite span_digits_digit_units; [|exact Hall_s | exact Hnd].
    destruct (skipn (S p') (d :: t)) as [|f1 fr] eqn:Hskip.
    { exfalso. apply (f_equal (@length N)) in Hskip.
      rewrite length_skipn in Hskip. cbn [length] in *. lia. }
    rewrite (parse_exp_absent _ Hend). f_equal. f_equal.
    apply make_number_canonical with (pre := O) (post := O);
      [exact Hd | exact Hlast | |].
    - cbn [repeat app]. rewrite app_nil_r. cbn [firstn] in Hsplit. exact Hsplit.
    - change (d :: firstn p' t) with (firstn (S p') (d :: t)).
      rewrite length_firstn. lia. }
  destruct ((-6 <? n)%Z && (n <=? 0)%Z) eqn:C3.
  { (* below one: zero, point, zeros, digits *)
    apply andb_prop in C3 as [_ Hn0]. apply Z.leb_le in Hn0.
    set (m := Z.to_nat (- n)).
    rewrite zeros_digit_units. unfold digit_units. rewrite <- map_app.
    fold (digit_units (repeat 0%N m ++ d :: t)).
    unfold parse_unsigned.
    change (cZero :: cDot :: digit_units (repeat 0%N m ++ d :: t))
      with (digit_units [0%N] ++ cDot :: digit_units (repeat 0%N m ++ d :: t)).
    rewrite <- app_assoc.
    rewrite span_digits_digit_units; [|reflexivity | reflexivity].
    cbv iota. cbn [app parse_frac]. change (cDot =? cDot)%N with true. cbv iota.
    rewrite span_digits_digit_units;
      [|rewrite forallb_app, Hall, forallb_repeat_zero; reflexivity | exact Hnd].
    destruct (repeat 0%N m ++ d :: t) as [|f1 fr] eqn:Hfp.
    { destruct (repeat 0%N m); discriminate. }
    rewrite (parse_exp_absent _ Hend). f_equal. f_equal. rewrite <- Hfp.
    apply make_number_canonical with (pre := S m) (post := O);
      [exact Hd | exact Hlast | |].
    - cbn [repeat app]. rewrite app_nil_r. reflexivity.
    - cbn [length]. unfold m. lia. }
  (* exponent notation *)
  assert (Hexp : forall tl,
    parse_exp (101%N :: (if (n - 1 <? 0)%Z then cMinus else cPlus)
                     :: decimal_units (Z.abs_N (n - 1)) ++ tl) = Some ((n - 1)%Z, tl)
    \/ ~ no_digit_ahead tl).
  { intros tl. destruct tl as [|c r].
    - left. apply parse_exp_written. exact Logic.I.
    - destruct (is_digit c) eqn:Hc.
      + right. cbn. rewrite Hc. discriminate.
      + left. apply parse_exp_written. exact Hc. }
  destruct (Hexp rest) as [Hex|Hbad]; [|contradiction]. clear Hexp.
  cbn [Nat.eqb] in Hall. cbn [forallb] in Hall.
  apply andb_prop in Hall as [Hd10 Hall_t].
  destruct t as [|d' r].
  - change ((digit_unit d :: 101%N :: (if (n - 1 <? 0)%Z then cMinus else cPlus)
               :: decimal_units (Z.abs_N (n - 1))) ++ rest)
      with (digit_units [d] ++ 101%N
              :: (if (n - 1 <? 0)%Z then cMinus else cPlus)
              :: decimal_units (Z.abs_N (n - 1)) ++ rest).
    unfold parse_unsigned.
    rewrite span_digits_digit_units;
      [|cbn [forallb]; rewrite Hd10; reflexivity | reflexivity].
    cbv iota. cbn [parse_frac]. change (101 =? cDot)%N with false. cbv iota.
    rewrite Hex. f_equal. f_equal.
    apply make_number_canonical with (pre := O) (post := O);
      [exact Hd | exact Hlast | reflexivity | cbn [length]; lia].
  - change ((digit_unit d :: cDot :: digit_units (d' :: r)
               ++ 101%N :: (if (n - 1 <? 0)%Z then cMinus else cPlus)
               :: decimal_units (Z.abs_N (n - 1))) ++ rest)
      with (digit_units [d] ++ cDot :: (digit_units (d' :: r)
              ++ 101%N :: (if (n - 1 <? 0)%Z then cMinus else cPlus)
              :: decimal_units (Z.abs_N (n - 1))) ++ rest).
    unfold parse_unsigned.
    rewrite span_digits_digit_units;
      [|cbn [forallb]; rewrite Hd10; reflexivity | reflexivity].
    cbv iota. cbn [parse_frac]. change (cDot =? cDot)%N with true. cbv iota.
    rewrite <- app_assoc. cbn [app].
    rewrite span_digits_digit_units; [|exact Hall_t | reflexivity].
    rewrite Hex. f_equal. f_equal.
    apply make_number_canonical with (pre := O) (post := O);
      [exact Hd | exact Hlast | cbn; rewrite app_nil_r; reflexivity
      | cbn [length]; lia].
Qed.

Unset Implicit Arguments.

Lemma number_body_head (d : N) (t : list N) (n : Z) :
  (d <? 10)%N = true ->
  exists c tl, number_body (d :: t) n = c :: tl /\ is_digit c = true.
Proof.
  intros Hd. pose proof (is_digit_digit_unit _ Hd) as Hdig. unfold number_body.
  destruct ((Z.of_nat (length (d :: t)) <=? n)%Z && (n <=? 21)%Z).
  { eexists _, _. split; [reflexivity | exact Hdig]. }
  destruct ((0 <? n)%Z && (n <=? 21)%Z) eqn:C2.
  { apply andb_prop in C2 as [Hn0 _]. apply Z.ltb_lt in Hn0.
    destruct (Z.to_nat n) as [|p] eqn:Hp; [lia|].
    eexists _, _. split; [reflexivity | exact Hdig]. }
  destruct ((-6 <? n)%Z && (n <=? 0)%Z).
  { eexists _, _. split; reflexivity. }
  destruct t; eexists _, _; (split; [reflexivity | exact Hdig]).
Qed.

Lemma Number_toString_head (x : number) :
  wf_number x = true ->
  exists c tl, Number_toString x = c :: tl /\ (is_digit c = true \/ c = cMinus).
Proof.
  intros Hwf. destruct x as [|neg s n].
  - eexists _, _. split; [reflexivity | left; reflexivity].
  - destruct (wf_number_finite _ _ _ Hwf) as [d [t [-> [_ [_ Hall]]]]].
    cbn [forallb] in Hall. apply andb_prop in Hall as [Hd _].
    cbn [Number_toString]. destruct neg.
    + eexists _, _. split; [reflexivity | right; reflexivity].
    + destruct (number_body_head d t n Hd) as [c [tl [E Hc]]].
      exists c, tl. split; [exact E | left; exact Hc].
Qed.

Lemma parse_number_Number_toString (x : number) (rest : jstring) :
  wf_number x = true ->
  number_end rest = true ->
  parse_number (Number_toString x ++ rest) = Some (x, rest).
Proof.
  intros Hwf Hend. destruct x as [|neg s n].
  - cbn [Number_toString app parse_number].
    change (cZero =? cMinus)%N with false. cbv iota.
    unfold parse_unsigned.
    change (cZero :: rest) with (digit_units [0%N] ++ rest).
    rewrite span_digits_digit_units;
      [|reflexivity | apply number_end_no_digit, Hend].
    cbv beta iota zeta.
    rewrite (parse_frac_absent _ Hend), (parse_exp_absent _ Hend). reflexivity.
  - cbn [Number_toString]. destruct neg.
    + cbn [app parse_number]. change (cMinus =? cMinus)%N with true. cbv iota.
      apply parse_unsigned_number_body; assumption.
    + destruct (wf_number_finite _ _ _ Hwf) as [d [t [-> [_ [_ Hall]]]]].
      cbn [forallb] in Hall. apply andb_prop in Hall as [Hd _].
      destruct (number_body_head d t n Hd) as [c [tl [E Hc]]].
      pose proof (@parse_unsigned_number_body false (d :: t) n rest Hwf Hend) as Hp.
      rewrite E in *. cbn [app parse_number] in *.
      assert (Hm : (c =? cMinus)%N = false).
      { unfold is_digit in Hc. apply andb_prop in Hc as [Hlo _].
        apply N.leb_le in Hlo. apply N.eqb_neq. unfold cMinus. lia. }
      rewrite Hm. exact Hp.
Qed.

(** *** Values are read back *)

(** How [parse_value] goes about a text, by its first character. *)
Lemma digit_dispatch (c : N) :
  is_digit c = true \/ c = cMinus ->
  is_ws c = false /\ (c =? cQuote)%N = false /\ (c =? cLBracket)%N = false /\
  (c =? cLBrace)%N = false /\ (c =? 116)%N = false /\ (c =? 102)%N = false /\
  (c =? 110)%N = false /\ (c =? cRBracket)%N = false /\ (c =? cRBrace)%N = false.
Proof.
  intros [Hc| ->]; [|repeat split].
  unfold is_digit in Hc. apply andb_prop in Hc as [Hlo Hhi].
  apply N.leb_le in Hlo, Hhi.
  unfold is_ws, cQuote, cLBracket, cLBrace, cRBracket, cRBrace.
  repeat split; try (apply N.eqb_neq; lia).
  rewrite !orb_false_iff. repeat split; apply N.eqb_neq; lia.
Qed.

(** The text of a value starts with a character that is no white space
    and closes nothing. *)
Lemma JSON_stringify_head (v : json) :
  wf_json v = true ->
  exists c tl, JSON_stringify v = c :: tl /\ is_ws c = false /\
               (c =? cRBracket)%N = false /\ (c =? cRBrace)%N = false.
Proof.
  intros Hwf. destruct v as [|[]|x|s|l|ps]; cbn [JSON_stringify]; eval_lit;
    try (eexists _, _; repeat split; fail).
  destruct (Number_toString_head x Hwf) as [c [tl [E Hc]]].
  exists c, tl. destruct (digit_dispatch c Hc) as (H1 & _ & _ & _ & _ & _ & _ & H8 & H9).
  repeat split; assumption.
Qed.

Lemma parse_value_number (fuel : nat) (x : number) (rest : jstring) :
  wf_number x = true -> number_end rest = true ->
  parse_value (S fuel) (Number_toString x ++ rest) = Some (JNum x, rest).
Proof.
  intros Hwf Hend.
  pose proof (parse_number_Number_toString x rest Hwf Hend) as Hp.
  destruct (Number_toString_head x Hwf) as [c [tl [E Hc]]].
  rewrite E in *. cbn [app] in *.
  destruct (digit_dispatch c Hc) as (H1 & H2 & H3 & H4 & H5 & H6 & H7 & _ & _).
  cbn [parse_value skip_ws]. rewrite H1, H2, H3, H4, H5, H6, H7, Hp. reflexivity.
Qed.

Lemma parse_value_string (fuel : nat) (s rest : jstring) :
  parse_value (S fuel) (QuoteJSONString s ++ rest) = Some (JStr s, rest).
Proof.
  unfold QuoteJSONString. cbn [app]. rewrite <- app_assoc. cbn [app].
  cbn [parse_value skip_ws]. change (is_ws cQuote) with false. cbv iota.
  change (cQuote =? cQuote)%N with true. cbv iota.
  rewrite parse_string_body_quote_units. reflexivity.
Qed.

(** The elements of an array are read back up to the closing bracket. *)
Lemma parse_elements_join (l : list json) :
  l <> [] ->
  Forall reads_back l ->
  forall fuel rest,
    (list_cost l < fuel)%nat ->
    parse_elements fuel (join_comma (map JSON_stringify l) ++ cRBracket :: rest)
      = Some (l, rest).
Proof.
  induction l as [|x l IH]; intros Hne Hall fuel rest Hfuel; [congruence|].
  inversion Hall as [|x' l' Hx Hl]; subst.
  destruct fuel as [|f]; [lia|].
  change (list_cost (x :: l)) with (S (cost x) + list_cost l)%nat in Hfuel.
  destruct l as [|y l].
  - cbn [map join_comma parse_elements].
    rewrite (Hx f (cRBracket :: rest)) by (reflexivity || lia).
    reflexivity.
  - change (join_comma (map JSON_stringify (x :: y :: l)))
      with (JSON_stringify x ++ cComma :: join_comma (map JSON_stringify (y :: l))).
    rewrite <- app_assoc, <- app_comm_cons. cbn [parse_elements].
    rewrite (Hx f) by (reflexivity || lia).
    cbn [skip_ws]. change (is_ws cComma) with false. cbv iota.
    change (cComma =? cComma)%N with true. cbv iota.
    rewrite IH; [reflexivity | discriminate | exact Hl | lia].
Qed.

(** The members of an object are read back up to the closing brace. *)
Lemma parse_members_join (ps : list (jstring * json)) :
  ps <> [] ->
  Forall (fun kv => reads_back (snd kv)) ps ->
  forall fuel rest,
    (props_cost ps < fuel)%nat ->
    parse_members fuel (join_comma (map member_text ps) ++ cRBrace :: rest)
      = Some (ps, rest).
Proof.
  assert (Hmember : forall k v tail,
    member_text (k, v) ++ tail
    = cQuote :: quote_units k ++ cQuote :: cColon :: JSON_stringify v ++ tail).
  { intros k v tail. unfold member_text, QuoteJSONString. cbn [fst snd].
    cbn [app]. rewrite <- !app_assoc. reflexivity. }
  induction ps as [|[k v] ps IH]; intros Hne Hall fuel rest Hfuel; [congruence|].
  inversion Hall as [|kv' ps' Hv Hps]; subst. cbn [snd] in Hv.
  destruct fuel as [|f]; [lia|].
  change (props_cost ((k, v) :: ps)) with (S (cost v) + props_cost ps)%nat in Hfuel.
  destruct ps as [|kv2 ps].
  - cbn [map join_comma]. rewrite Hmember.
    cbn [parse_members skip_ws]. change (is_ws cQuote) with false. cbv iota.
    change (cQuote =? cQuote)%N with true. cbv iota.
    rewrite parse_string_body_quote_units.
    cbn [skip_ws]. change (is_ws cColon) with false. cbv iota.
    change (cColon =? cColon)%N with true. cbv iota.
    rewrite (Hv f (cRBrace :: rest)) by (reflexivity || lia).
    reflexivity.
  - change (join_comma (map member_text ((k, v) :: kv2 :: ps)))
      with (member_text (k, v) ++ cComma :: join_comma (map member_text (kv2 :: ps))).
    rewrite <- app_assoc, <- app_comm_cons. rewrite Hmember.
    cbn [parse_members skip_ws]. change (is_ws cQuote) with false. cbv iota.
    change (cQuote =? cQuote)%N with true. cbv iota.
    rewrite parse_string_body_quote_units.
    cbn [skip_ws]. change (is_ws cColon) with false. cbv iota.
    change (cColon =? cColon)%N with true. cbv iota.
    rewrite (Hv f) by (reflexivity || lia).
    cbn [skip_ws]. change (is_ws cComma) with false. cbv iota.
    change (cComma =? cRBrace)%N with false.
    change (cComma =? cComma)%N with true. cbv iota.
    rewrite IH; [reflexivity | discriminate | exact Hps | lia].
Qed.

Lemma join_comma_head (l : list jstring) (x : jstring) (c : N) (tl : jstring) :
  x = c :: tl ->
  exists tl', join_comma (x :: l) = c :: tl'.
Proof.
  intros ->. destruct l as [|y l].
  - exists tl. reflexivity.
  - eexists. cbn [join_comma]. rewrite <- app_comm_cons. reflexivity.
Qed.

(** Every well-formed value is read back from its text. *)
Theorem parse_value_JSON_stringify (v : json) :
  wf_json v = true -> reads_back v.
Proof.
  induction v as [|b|x|s|l IH|ps IH] using json_nested_ind; intros Hwf fuel rest Hfuel Hend;
    (destruct fuel as [|f]; [cbn in Hfuel; lia|]).
  - reflexivity.
  - destruct b; reflexivity.
  - apply parse_value_number; assumption.
  - apply parse_value_string.
  - cbn [wf_json] in Hwf. cbn [cost] in Hfuel. fold (list_cost l) in Hfuel.
    assert (Hall : Forall reads_back l).
    { rewrite forallb_forall in Hwf. rewrite Forall_forall in IH |- *.
      intros x Hx. apply IH; [exact Hx | apply Hwf, Hx]. }
    cbn [JSON_stringify app]. rewrite <- app_assoc. cbn [app].
    destruct l as [|x l].
    + reflexivity.
    + match goal with
      | |- parse_value _ (_ :: ?T) = _ => remember T as text eqn:Etext
      end.
      assert (Hhead : exists c tl, text = c :: tl /\ is_ws c = false /\
                                   (c =? cRBracket)%N = false).
      { cbn [forallb] in Hwf. apply andb_prop in Hwf as [Hx _].
        destruct (JSON_stringify_head x Hx) as (c & tl & E & Hws & Hb & _).
        destruct (join_comma_head (map JSON_stringify l) _ c tl E) as [tl' E'].
        cbn [map] in Etext. rewrite E' in Etext. cbn [app] in Etext.
        exists c, (tl' ++ cRBracket :: rest). repeat split; assumption. }
      destruct Hhead as (c & tl & E & Hws & Hb).
      cbn [parse_value skip_ws]. change (is_ws cLBracket) with false. cbv iota.
      change (cLBracket =? cQuote)%N with false.
      change (cLBracket =? cLBracket)%N with true. cbv iota.
      rewrite E. cbn [skip_ws]. rewrite Hws, Hb. rewrite <- E, Etext.
      rewrite parse_elements_join; [reflexivity | discriminate | exact Hall | lia].
  - cbn [wf_json] in Hwf. apply andb_prop in Hwf as [Hkeys Hwf].
    cbn [cost] in Hfuel. fold (props_cost ps) in Hfuel.
    assert (Hall : Forall (fun kv => reads_back (snd kv)) ps).
    { rewrite forallb_forall in Hwf. rewrite Forall_forall in IH |- *.
      intros kv Hkv. apply IH; [exact Hkv | apply Hwf, Hkv]. }
    cbn [JSON_stringify app]. rewrite <- app_assoc. cbn [app].
    fold member_text. change (fun kv : jstring * json =>
        QuoteJSONString (fst kv) ++ cColon :: JSON_stringify (snd kv)) with member_text.
    destruct ps as [|[k v] ps].
    + reflexivity.
    + match goal with
      | |- parse_value _ (_ :: ?T) = _ => remember T as text eqn:Etext
      end.
      assert (Etext' : text = join_comma (member_text (k, v) :: map member_text ps)
                              ++ cRBrace :: rest) by exact Etext.
      clear Etext. rename Etext' into Etext.
      assert (Hhead : exists tl, text = cQuote :: tl).
      { destruct (join_comma_head (map member_text ps) (member_text (k, v)) cQuote
                    (quote_units k ++ [cQuote] ++ cColon :: JSON_stringify v))
          as [tl' E'].
        { unfold member_text, QuoteJSONString. cbn [fst snd app].
          rewrite <- app_assoc. reflexivity. }
        rewrite E' in Etext. cbn [app] in Etext.
        eexists. exact Etext. }
      destruct Hhead as [tl E].
      cbn [parse_value skip_ws]. change (is_ws cLBrace) with false. cbv iota.
      change (cLBrace =? cQuote)%N with false.
      change (cLBrace =? cLBracket)%N with false.
      change (cLBrace =? cLBrace)%N with true. cbv iota.
      rewrite E. cbn [skip_ws]. change (is_ws cQuote) with false. cbv iota.
      change (cQuote =? cRBrace)%N with false. cbv iota.
      rewrite <- E, Etext.
      change (member_text (k, v) :: map member_text ps)
        with (map member_text ((k, v) :: ps)).
      rewrite parse_members_join; [|discriminate | exact Hall | lia].
      rewrite (build_object_wf _ Hkeys). reflexivity.
Qed.

(** *** [JSON.parse] undoes [JSON.stringify] *)

Lemma join_comma_cost (A : Type) (f : A -> nat) (g : A -> jstring) (l : list A) :
  Forall (fun x => (f x <= length (g x))%nat) l ->
  (list_sum (map (fun x => S (f x)) l) <= 1 + length (join_comma (map g l)))%nat.
Proof.
  induction 1 as [|x l Hx Hl IH]; [cbn; lia|].
  destruct l as [|y l].
  - cbn. lia.
  - change (join_comma (map g (x :: y :: l)))
      with (g x ++ cComma :: join_comma (map g (y :: l))).
    rewrite length_app. cbn [length].
    change (list_sum (map (fun x => S (f x)) (x :: y :: l)))
      with (S (f x) + list_sum (map (fun x => S (f x)) (y :: l)))%nat.
    lia.
Qed.

(** The fuel a value needs is at most the length of its text. *)
Lemma cost_le_length (v : json) :
  wf_json v = true -> (cost v <= length (JSON_stringify v))%nat.
Proof.
  induction v as [|b|x|s|l IH|ps IH] using json_nested_ind; intros Hwf.
  - cbn. lia.
  - destruct b; cbn; lia.
  - destruct (Number_toString_head x Hwf) as (c & tl & E & _).
    cbn [JSON_stringify cost]. rewrite E. cbn [length]. lia.
  - cbn [JSON_stringify cost]. unfold QuoteJSONString. cbn [length]. lia.
  - cbn [wf_json] in Hwf. cbn [JSON_stringify cost length].
    rewrite length_app. cbn [length].
    assert (H : Forall (fun x => (cost x <= length (JSON_stringify x))%nat) l).
    { rewrite forallb_forall in Hwf. rewrite Forall_forall in IH |- *.
      intros x Hx. apply IH; [exact Hx | apply Hwf, Hx]. }
    pose proof (join_comma_cost json cost JSON_stringify l H) as Hb.
    apply le_n_S. rewrite Nat.add_1_r. exact Hb.
  - cbn [wf_json] in Hwf. apply andb_prop in Hwf as [_ Hwf].
    cbn [JSON_stringify cost length].
    rewrite length_app. cbn [length].
    assert (H : Forall (fun kv => (cost (snd kv) <= length (member_text kv))%nat) ps).
    { rewrite forallb_forall in Hwf. rewrite Forall_forall in IH |- *.
      intros kv Hkv. specialize (IH kv Hkv (Hwf kv Hkv)).
      unfold member_text. rewrite length_app. cbn [length]. lia. }
    pose proof (join_comma_cost (jstring * json) (fun kv => cost (snd kv))
                  member_text ps H) as Hb.
    apply le_n_S. rewrite Nat.add_1_r. exact Hb.
Qed.

(** Parsing the JSON text of a well-formed value gives the value. *)
Theorem JSON_parse_JSON_stringify (v : json) :
  wf_json v = true -> JSON_parse (JSON_stringify v) = Some v.
Proof.
  intros Hwf. unfold JSON_parse.
  pose proof (parse_value_JSON_stringify v Hwf
                (2 * length (JSON_stringify v) + 1) []) as H.
  rewrite app_nil_r in H. rewrite H; [reflexivity | | reflexivity].
  pose proof (cost_le_length v Hwf). lia.
Qed.

(** ** The fuel of [JSON_parse] is enough *)

Lemma skip_ws_length (s : jstring) : (length (skip_ws s) <= length s)%nat.
Proof.
  induction s as [|c s IH]; [reflexivity|].
  cbn [skip_ws]. destruct (is_ws c); cbn [length]; lia.
Qed.

Lemma skip_ws_cons_length (s : jstring) (c : N) (t : jstring) :
  skip_ws s = c :: t -> (length t < length s)%nat.
Proof.
  intros H. pose proof (skip_ws_length s) as L. rewrite H in L. cbn [length] in L. lia.
Qed.

Lemma parse_string_body_length (s str r : jstring) :
  parse_string_body s = Some (str, r) -> (length r < length s)%nat.
Proof.
  remember (length s) as n eqn:Hn. assert (Hle : (length s <= n)%nat) by lia.
  clear Hn. revert s str r Hle.
  induction n as [|n IH]; intros s str r Hle H.
  - destruct s; [discriminate | cbn [length] in Hle; lia].
  - destruct s as [|c t]; [discriminate|]. cbn [length] in Hle.
    cbn [parse_string_body] in H.
    destruct (c =? cQuote)%N.
    { injection H as <- <-. cbn [length]. lia. }
    destruct (c =? cBackslash)%N.
    { destruct t as [|e t1]; [discriminate|]. cbn [length] in Hle.
      destruct (e =? 117)%N.
      - destruct t1 as [|h1 [|h2 [|h3 [|h4 t2]]]]; try discriminate.
        destruct (hex4_value h1 h2 h3 h4); [|discriminate].
        destruct (parse_string_body t2) as [[str' r']|] eqn:E; [|discriminate].
        injection H as <- <-. cbn [length] in *.
        pose proof (IH t2 str' r' ltac:(lia) E). lia.
      - destruct (unescape e); [|discriminate].
        destruct (parse_string_body t1) as [[str' r']|] eqn:E; [|discriminate].
        injection H as <- <-. cbn [length] in *.
        pose proof (IH t1 str' r' ltac:(lia) E). lia. }
    destruct (c <? 32)%N; [discriminate|].
    destruct (parse_string_body t) as [[str' r']|] eqn:E; [|discriminate].
    injection H as <- <-. cbn [length].
    pose proof (IH t str' r' ltac:(lia) E). lia.
Qed.

Lemma span_digits_length (s : jstring) :
  (length (fst (span_digits s)) + length (snd (span_digits s)) = length s)%nat.
Proof.
  induction s as [|c s IH]; [reflexivity|].
  cbn [span_digits]. destruct (is_digit c); [|reflexivity].
  destruct (span_digits s) as [ds r]. cbn [fst snd length] in *. lia.
Qed.

Lemma parse_frac_length (s : jstring) (fp : list N) (r : jstring) :
  parse_frac s = Some (fp, r) -> (length r <= length s)%nat.
Proof.
  unfold parse_frac. destruct s as [|c t]; [intros [= <- <-]; reflexivity|].
  destruct (c =? cDot)%N; [|intros [= <- <-]; reflexivity].
  pose proof (span_digits_length t) as L.
  destruct (span_digits t) as [[|d ds] r']; [discriminate|].
  intros [= <- <-]. cbn [fst snd length] in *. lia.
Qed.

Lemma parse_exp_length (s : jstring) (ex : Z) (r : jstring) :
  parse_exp s = Some (ex, r) -> (length r <= length s)%nat.
Proof.
  unfold parse_exp. destruct s as [|c t]; [intros [= <- <-]; reflexivity|].
  destruct ((c =? 101)%N || (c =? 69)%N); [|intros [= <- <-]; reflexivity].
  destruct t as [|g t'].
  - cbn. discriminate.
  - destruct (g =? cMinus)%N.
    + pose proof (span_digits_length t') as L.
      destruct (span_digits t') as [[|d ds] r']; [discriminate|].
      intros [= <- <-]. cbn [fst snd length] in *. lia.
    + destruct (g =? cPlus)%N.
      * pose proof (span_digits_length t') as L.
        destruct (span_digits t') as [[|d ds] r']; [discriminate|].
        intros [= <- <-]. cbn [fst snd length] in *. lia.
      * pose proof (span_digits_length (g :: t')) as L.
        destruct (span_digits (g :: t')) as [[|d ds] r']; [discriminate|].
        intros [= <- <-]. cbn [fst snd length] in *. lia.
Qed.

Lemma parse_unsigned_length (neg : bool) (s : jstring) (x : number) (r : jstring) :
  parse_unsigned neg s = Some (x, r) -> (length r < length s)%nat.
Proof.
  unfold parse_unsigned. pose proof (span_digits_length s) as L.
  destruct (span_digits s) as [[|d ds] s2]; [discriminate|].
  cbn [fst snd length] in L.
  match goal with |- (if ?b then _ else _) = _ -> _ => destruct b end;
    [|discriminate].
  destruct (parse_frac s2) as [[fp s3]|] eqn:Ef; [|discriminate].
  destruct (parse_exp s3) as [[ex s4]|] eqn:Ee; [|discriminate].
  intros [= <- <-].
  apply parse_frac_length in Ef. apply parse_exp_length in Ee. lia.
Qed.

Lemma parse_number_length (s : jstring) (x : number) (r : jstring) :
  parse_number s = Some (x, r) -> (length r < length s)%nat.
Proof.
  unfold parse_number. destruct s as [|c t]; [discriminate|].
  destruct (c =? cMinus)%N; intros H; apply parse_unsigned_length in H;
    cbn [length] in *; lia.
Qed.

Lemma strip_prefix_length (p s r : jstring) :
  strip_prefix p s = Some r -> (length r + length p = length s)%nat.
Proof.
  revert s. induction p as [|a p IH]; intros s.
  - cbn. intros [= <-]. lia.
  - destruct s as [|b s]; [discriminate|]. cbn [strip_prefix].
    destruct (a =? b)%N; [|discriminate].
    intros H. apply IH in H. cbn [length]. lia.
Qed.

(** Case analysis on every test and intermediate result of a parser run
    that succeeded. *)
Ltac break_parse H :=
  repeat match type of H with
         | context [match ?x with _ => _ end] =>
             destruct x eqn:?; try discriminate H
         | context [if ?x then _ else _] =>
             destruct x eqn:?; try discriminate H
         end.

Ltac note pf :=
  let T := type of pf in
  lazymatch goal with
  | _ : T |- _ => fail
  | _ => pose proof pf
  end.

(** What the runs of the lexical parsers consumed, as facts on lengths. *)
Ltac consumed :=
  repeat match goal with
         | H : skip_ws ?s = _ :: _ |- _ => note (skip_ws_cons_length s _ _ H)
         | H : parse_string_body _ = Some (_, _) |- _ =>
             note (parse_string_body_length _ _ _ H)
         | H : parse_number _ = Some (_, _) |- _ =>
             note (parse_number_length _ _ _ H)
         | H : strip_prefix _ _ = Some _ |- _ =>
             note (strip_prefix_length _ _ _ H)
         end.

(** A run that succeeds consumes some of the text. *)
Lemma parse_consumes (f : nat) :
  (forall s v r, parse_value f s = Some (v, r) -> (length r < length s)%nat) /\
  (forall s l r, parse_elements f s = Some (l, r) -> (length r < length s)%nat) /\
  (forall s ms r, parse_members f s = Some (ms, r) -> (length r < length s)%nat).
Proof.
  induction f as [|f (IHv & IHe & IHm)]; [repeat split; discriminate|].
  split; [|split].
  - intros s v r H. cbn [parse_value] in H. break_parse H;
      injection H as <- <-; consumed;
      repeat match goal with
             | E : parse_elements f _ = Some (_, _) |- _ => apply IHe in E
             | E : parse_members f _ = Some (_, _) |- _ => apply IHm in E
             end; unfold lit_true, lit_false, lit_null in *;
      cbn [length] in *; lia.
  - intros s l r H. cbn [parse_elements] in H. break_parse H;
      injection H as <- <-; consumed;
      repeat match goal with
             | E : parse_value f _ = Some (_, _) |- _ => apply IHv in E
             | E : parse_elements f _ = Some (_, _) |- _ => apply IHe in E
             end; cbn [length] in *; lia.
  - intros s ms r H. cbn [parse_members] in H. break_parse H;
      injection H as <- <-; consumed;
      repeat match goal with
             | E : parse_value f _ = Some (_, _) |- _ => apply IHv in E
             | E : parse_members f _ = Some (_, _) |- _ => apply IHm in E
             end; cbn [length] in *; lia.
Qed.

(** A run that succeeds with some fuel succeeds, with the same result,
    with any fuel above twice the length of the text. *)
Lemma parse_fuel_enough (f : nat) :
  (forall s g x, (2 * length s + 1 <= g)%nat ->
     parse_value f s = Some x -> parse_value g s = Some x) /\
  (forall s g x, (2 * length s + 2 <= g)%nat ->
     parse_elements f s = Some x -> parse_elements g s = Some x) /\
  (forall s g x, (2 * length s + 2 <= g)%nat ->
     parse_members f s = Some x -> parse_members g s = Some x).
Proof.
  induction f as [|f (IHv & IHe & IHm)]; [repeat split; discriminate|].
  destruct (parse_consumes f) as (Cv & Ce & Cm).
  split; [|split]; intros s g x Hg H; (destruct g as [|g]; [lia|]).
  - cbn [parse_value] in H |- *. break_parse H; cbv beta iota; consumed;
      try exact H;
      repeat match goal with
             | E : parse_elements f ?t = Some ?y |- _ =>
                 rewrite (IHe t g y ltac:(cbn [length] in *; lia) E); clear E
             | E : parse_members f ?t = Some ?y |- _ =>
                 rewrite (IHm t g y ltac:(cbn [length] in *; lia) E); clear E
             end; exact H.
  - cbn [parse_elements] in H |- *. break_parse H; cbv beta iota; consumed;
      repeat match goal with
             | E : parse_value f ?t = Some (?v, ?r) |- _ =>
                 note (Cv t v r E);
                 rewrite (IHv t g (v, r) ltac:(cbn [length] in *; lia) E); clear E
             end;
      cbv beta iota;
      repeat match goal with
             | E : skip_ws ?t = _ |- _ => rewrite E; clear E
             end;
      cbv beta iota;
      repeat match goal with
             | E : (_ =? _)%N = _ |- _ => rewrite E; clear E
             end;
      repeat match goal with
             | E : parse_elements f ?t = Some ?y |- _ =>
                 rewrite (IHe t g y ltac:(cbn [length] in *; lia) E); clear E
             end; exact H.
  - cbn [parse_members] in H |- *. break_parse H; cbv beta iota; consumed;
      repeat match goal with
             | E : parse_value f ?t = Some (?v, ?r) |- _ =>
                 note (Cv t v r E);
                 rewrite (IHv t g (v, r) ltac:(cbn [length] in *; lia) E); clear E
             end;
      cbv beta iota;
      repeat match goal with
             | E : skip_ws ?t = _ |- _ => rewrite E; clear E
             end;
      cbv beta iota;
      repeat match goal with
             | E : (_ =? _)%N = _ |- _ => rewrite E; clear E
             end;
      repeat match goal with
             | E : parse_members f ?t = Some ?y |- _ =>
                 rewrite (IHm t g y ltac:(cbn [length] in *; lia) E); clear E
             end; exact H.
Qed.

(** When some fuel reads a text as one value followed by white space
    only, [JSON_parse] reads it as that value: [None] is a syntax error,
    never a lack of fuel. *)
Theorem JSON_parse_fuel (text : jstring) (f : nat) (v : json) (r : jstring) :
  parse_value f text = Some (v, r) ->
  skip_ws r = [] ->
  JSON_parse text = Some v.
Proof.
  intros H Hws. unfold JSON_parse.
  rewrite (proj1 (parse_fuel_enough f) text (2 * length text + 1) (v, r)
             (le_n _) H).
  rewrite Hws. reflexivity.
Qed.

(** ** The envelope *)

Lemma get_own_wf (k : jstring) (ps : list (jstring * json)) (v : json) :
  forallb (fun kv => wf_json (snd kv)) ps = true ->
  get_own k ps = Some v -> wf_json v = true.
Proof.
  induction ps as [|[k' v'] ps IH]; [discriminate|].
  cbn [forallb get_own snd]. intros H. apply andb_prop in H as [Hv Hps].
  destruct (jstring_eqb k k'); [intros [= <-]; exact Hv | apply IH, Hps].
Qed.

Lemma envelope_props (event : UpstreamEvent) :
  defined_props (envelope event) =
    match type event with
    | Some kind => [(lit "event", kind); (lit "data", event_value event)]
    | None => [(lit "data", event_value event)]
    end.
Proof. unfold envelope. destruct (type event); reflexivity. Qed.

Lemma envelope_wf (event : UpstreamEvent) :
  wf_json (event_value event) = true ->
  wf_json (JObj (defined_props (envelope event))) = true.
Proof.
  intros Hwf. rewrite envelope_props.
  destruct (type event) as [kind|] eqn:Hkind.
  - assert (Hk : wf_json kind = true).
    { unfold type in Hkind. unfold event_value in Hwf. cbn [wf_json] in Hwf.
      apply andb_prop in Hwf as [_ Hwf]. exact (get_own_wf _ _ _ Hwf Hkind). }
    cbn [wf_json map fst snd forallb]. rewrite Hk, Hwf. reflexivity.
  - cbn [wf_json map fst snd forallb]. rewrite Hwf. reflexivity.
Qed.

Lemma envelope_data (event : UpstreamEvent) :
  get_own (lit "data") (defined_props (envelope event)) = Some (event_value event).
Proof.
  rewrite envelope_props. destruct (type event); cbn [get_own].
  - rewrite (@jstring_eqb_neq (lit "data") (lit "event")) by (vm_compute; discriminate).
    rewrite jstring_eqb_refl. reflexivity.
  - rewrite jstring_eqb_refl. reflexivity.
Qed.

Lemma envelope_event (event : UpstreamEvent) :
  get_own (lit "event") (defined_props (envelope event)) = type event.
Proof.
  rewrite envelope_props. destruct (type event); cbn [get_own].
  - rewrite jstring_eqb_refl. reflexivity.
  - rewrite (@jstring_eqb_neq (lit "event") (lit "data")) by (vm_compute; discriminate).
    reflexivity.
Qed.

(** C2. The text written for an event is the JSON text of the object
    [{ event: event.type, data: event }]; parsing it gives that object
    back, whose [data] is the whole event, property for property, and
    whose [event] is the event's [type]. *)
Theorem envelope_round_trip (event : UpstreamEvent) :
  wf_json (event_value event) = true ->
  JSON_parse (JSON_stringify_literal (envelope event))
    = Some (JObj (defined_props (envelope event))) /\
  get_own (lit "data") (defined_props (envelope event)) = Some (event_value event) /\
  get_own (lit "event") (defined_props (envelope event)) = type event /\
  type event = get_own (lit "type") (own event).
Proof.
  intros Hwf. split; [|split; [|split]].
  - unfold JSON_stringify_literal.
    apply JSON_parse_JSON_stringify, envelope_wf, Hwf.
  - apply envelope_data.
  - apply envelope_event.
  - reflexivity.
Qed.

Lemma envelope_round_trip_witness :
  wf_json (event_value Sample.delta) = true /\
  JSON_parse (JSON_stringify_literal (envelope Sample.delta))
    = Some (JObj (defined_props (envelope Sample.delta))) /\
  get_own (lit "data") (defined_props (envelope Sample.delta))
    = Some (event_value Sample.delta) /\
  get_own (lit "event") (defined_props (envelope Sample.delta)) = type Sample.delta /\
  type Sample.delta = get_own (lit "type") (own Sample.delta).
Proof.
  split; [reflexivity|].
  apply (envelope_round_trip Sample.delta). reflexivity.
Defined.

(** C7. A frame is the text [data: ], the JSON text of the envelope, and
    two line feeds; the JSON text holds no line feed, so the two at the
    end are the only ones of the frame.  The response that streams the
    frames of a POST the handler accepts has status 200 and the three
    event-stream headers, next to the CORS header set. *)
Theorem frame_format_and_stream_headers
    (engine : Engine) (sdk : SDK) (html : jstring) :
  (forall event : UpstreamEvent,
     frame event = lit "data: " ++ JSON_stringify (JObj (defined_props (envelope event)))
                     ++ [cNewline; cNewline] /\
     ~ In cNewline (JSON_stringify (JObj (defined_props (envelope event))))) /\
  (forall (request : Request) (env : Env) (requestData : json) (events : AsyncIter),
     method request = "POST"%string ->
     pathname (url request) = "/api/turn_response"%string ->
     JSON_parse (body_text request) = Some requestData ->
     requestData <> JNull ->
     sdk_construct sdk (OPENAI_API_KEY env) = None ->
     sdk_create sdk {| apiKey := OPENAI_API_KEY env |} (relay_params requestData)
       = inl events ->
     exists resp,
       fst (serve engine sdk html request env) = inl resp /\
       status resp = 200%N /\
       get_header "Content-Type" (headers resp) = Some "text/event-stream"%string /\
       get_header "Cache-Control" (headers resp) = Some "no-cache"%string /\
       get_header "Connection" (headers resp) = Some "keep-alive"%string /\
       has_cors resp /\
       body resp = BodyStream (new_ReadableStream engine events)).
Proof.
  split.
  - intros event. split; [reflexivity|].
    apply printable_no_newline, JSON_stringify_printable.
  - intros request env requestData events Hm Hp Hparse Hnull Hkey Hcreate.
    rewrite (serve_relay engine sdk html request env Hm Hp), Hparse.
    exists (stream_response engine events).
    destruct requestData; try congruence; rewrite Hkey, Hcreate;
      repeat split.
Qed.

(** ** The statements at sample inputs *)

Lemma frame_format_and_stream_headers_witness :
  let events := iteration [Sample.delta] None in
  let request := Sample.post "/api/turn_response" Sample.hi_body in
  exists resp,
    fst (serve Sample.engine (Sample.sdk events) Sample.html request Sample.env)
      = inl resp /\
    status resp = 200%N /\
    get_header "Content-Type" (headers resp) = Some "text/event-stream"%string /\
    get_header "Cache-Control" (headers resp) = Some "no-cache"%string /\
    get_header "Connection" (headers resp) = Some "keep-alive"%string /\
    has_cors resp /\
    body resp = BodyStream (new_ReadableStream Sample.engine events).
Proof.
  refine (proj2 (frame_format_and_stream_headers
                   Sample.engine (Sample.sdk (iteration [Sample.delta] None))
                   Sample.html)
            (Sample.post "/api/turn_response" Sample.hi_body) Sample.env
            (JObj [(lit "messages",
                    JArr [JObj [(lit "role", JStr (lit "user"));
                                (lit "content", JStr (lit "hi"))]])])
            (iteration [Sample.delta] None) _ _ _ _ _ _).
  - reflexivity.
  - reflexivity.
  - vm_compute. reflexivity.
  - discriminate.
  - reflexivity.
  - reflexivity.
Defined.

Lemma options_preflight_witness :
  let request := {| method := "OPTIONS";
                    url := {| pathname := "/anything" |};
                    body_text := lit "ignored" |} in
  exists resp,
    serve Sample.engine (Sample.sdk IterDone) Sample.html request Sample.env
      = (inl resp, fresh_world) /\
    status resp = 200%N /\
    headers resp = corsHeaders /\
    has_cors resp /\
    body resp = BodyNull.
Proof.
  apply (options_preflight Sample.engine (Sample.sdk IterDone) Sample.html
           {| method := "OPTIONS"; url := {| pathname := "/anything" |};
              body_text := lit "ignored" |} Sample.env).
  reflexivity.
Defined.

(** C6 as stated fails: the preflight is answered 200, not 204. *)
Lemma options_preflight_status_is_not_204 :
  let request := {| method := "OPTIONS";
                    url := {| pathname := "/api/turn_response" |};
                    body_text := [] |} in
  exists resp,
    fst (serve Sample.engine (Sample.sdk IterDone) Sample.html request Sample.env)
      = inl resp /\
    status resp = 200%N /\
    status resp <> 204%N.
Proof.
  eexists. split; [reflexivity|]. split; [reflexivity | discriminate].
Qed.

Lemma invalid_body_responses_witness :
  let sdk := Sample.sdk (iteration [Sample.delta] None) in
  let malformed := Sample.post "/api/turn_response" (lit "{ messages") in
  let empty := Sample.post "/api/turn_response" (lit "{}") in
  (exists resp,
     fst (serve Sample.engine sdk Sample.html malformed Sample.env) = inl resp /\
     is_error_response resp
       (syntax_error_message Sample.engine (body_text malformed)) /\
     upstream_calls (snd (serve Sample.engine sdk Sample.html malformed Sample.env))
       = []) /\
  (input (relay_params (JObj [])) = undefined /\
   upstream_calls (snd (serve Sample.engine sdk Sample.html empty Sample.env))
     = [relay_params (JObj [])] /\
   fst (serve Sample.engine sdk Sample.html empty Sample.env)
     = inl (stream_response Sample.engine (iteration [Sample.delta] None))).
Proof.
  split.
  - apply (proj1 (invalid_body_responses
                    Sample.engine (Sample.sdk (iteration [Sample.delta] None))
                    Sample.html
                    (Sample.post "/api/turn_response" (lit "{ messages"))
                    Sample.env eq_refl eq_refl)).
    vm_compute. reflexivity.
  - apply (proj2 (invalid_body_responses
                    Sample.engine (Sample.sdk (iteration [Sample.delta] None))
                    Sample.html
                    (Sample.post "/api/turn_response" (lit "{}"))
                    Sample.env eq_refl eq_refl) []).
    + vm_compute. reflexivity.
    + reflexivity.
Defined.

(** C4 as stated fails: a body that is an object without [messages] gets
    the event stream when the upstream call resolves. *)
Lemma missing_messages_is_not_rejected :
  let request := Sample.post "/api/turn_response" (lit "{}") in
  JSON_parse (body_text request) = Some (JObj []) /\
  field (JObj []) "messages" = undefined /\
  exists resp,
    fst (serve Sample.engine (Sample.sdk (iteration [Sample.delta] None))
           Sample.html request Sample.env) = inl resp /\
    status resp = 200%N /\
    status resp <> 500%N.
Proof.
  split; [vm_compute; reflexivity|]. split; [reflexivity|].
  eexists. split; [vm_compute; reflexivity|]. split; [reflexivity | discriminate].
Qed.

Lemma upstream_call_forwards_request_witness :
  let sdk := Sample.sdk IterDone in
  let text := JSON_stringify (JObj [(lit "messages", JArr [])]) in
  let request := Sample.post "/api/turn_response" text in
  let params :=
    {| model := MODEL;
       input := Some (JArr []);
       tools := undefined;
       stream := true;
       parallel_tool_calls := false |} in
  upstream_calls (snd (serve Sample.engine sdk Sample.html request Sample.env))
    = [params] /\
  (forall events,
     sdk_create sdk {| apiKey := OPENAI_API_KEY Sample.env |} params = inl events ->
     fst (serve Sample.engine sdk Sample.html request Sample.env)
       = inl (stream_response Sample.engine events)).
Proof.
  refine (@upstream_call_forwards_request
            Sample.engine (Sample.sdk IterDone) Sample.html
            (Sample.post "/api/turn_response"
               (JSON_stringify (JObj [(lit "messages", JArr [])])))
            Sample.env [(lit "messages", JArr [])] _ _ _ _).
  - reflexivity.
  - reflexivity.
  - vm_compute. reflexivity.
  - reflexivity.
Defined.

(* ================================================================== *)
(** * Further properties *)
(* ================================================================== *)

(** ** The relay on any stream *)

Section RelayAnywhere.

Variable engine : Engine.

(** [start] on a readable stream that already holds chunks. *)
Lemma start_readable (events : AsyncIter) (w : StreamWorld) :
  state (ctrl w) = Readable ->
  exists tail,
    start engine events w =
      (inl tt,
       {| ctrl := {| written := written (ctrl w) ++ map frame (yielded events);
                     state := final_state events |};
          trace := trace w ++ relay_steps (yielded events) ++ tail |}) /\
    enqueued tail = [].
Proof.
  intros Hst. unfold start, try_catch, final_state.
  unfold bind at 1. rewrite for_await_readable by exact Hst.
  destruct (iter_end events) as [e|].
  - eexists. split; [|shelve]. cbn. rewrite <- !app_assoc. reflexivity.
    Unshelve. reflexivity.
  - eexists. split; [|shelve]. cbn. rewrite <- !app_assoc. reflexivity.
    Unshelve. reflexivity.
Qed.

Lemma start_refused (events : AsyncIter) (w : StreamWorld) :
  is_readable (state (ctrl w)) = false ->
  start engine events w =
    (inl tt, {| ctrl := ctrl w; trace := trace w ++ refused_steps engine events |}).
Proof.
  intros Hst. destruct w as [[wr st] tr]. cbn [ctrl state] in Hst.
  unfold start, try_catch, refused_steps.
  destruct events as [event rest| |e]; cbn [for_await].
  - unfold bind at 1. unfold bind at 1. unfold record_action, modify.
    unfold bind at 1. unfold relay_event, controller_enqueue.
    cbn [ctrl trace state written]. rewrite Hst.
    unfold bind, console_error, record_action, modify, controller_error.
    cbn [ctrl trace state written]. rewrite Hst.
    rewrite <- !app_assoc. reflexivity.
  - unfold bind at 1. unfold record_action, modify, controller_close.
    cbn [ctrl trace state written]. rewrite Hst.
    unfold bind, console_error, record_action, modify, controller_error.
    cbn [ctrl trace state written]. rewrite Hst.
    rewrite <- !app_assoc. reflexivity.
  - unfold bind at 1. unfold bind at 1. unfold record_action, modify, throw.
    unfold bind, console_error, record_action, modify, controller_error.
    cbn [ctrl trace state written]. rewrite Hst.
    rewrite <- !app_assoc. reflexivity.
Qed.

(** X1. When the stream is no longer readable (closed or errored before
    [start] gets to it), [start] still completes without throwing: the
    first write, or the close when there is no event, is refused by the
    controller, the refusal is logged and handed to [controller.error],
    no further event is pulled, and the controller is left exactly as it
    was. *)
Theorem start_on_terminated_stream (events : AsyncIter) (w : StreamWorld) :
  state (ctrl w) <> Readable ->
  fst (start engine events w) = inl tt /\
  ctrl (snd (start engine events w)) = ctrl w /\
  trace (snd (start engine events w)) = trace w ++ refused_steps engine events /\
  (forall event rest, events = IterYield event rest ->
     let e := ErrorObject (enqueue_message engine) in
     refused_steps engine events =
       [Next (Yielded event); Enqueue (frame event);
        ConsoleError (lit "Error in streaming loop:") e; Error e]).
Proof.
  intros Hst.
  assert (Hr : is_readable (state (ctrl w)) = false).
  { destruct (state (ctrl w)); [congruence | reflexivity | reflexivity]. }
  rewrite (start_refused events w Hr). cbn [fst snd ctrl trace].
  repeat split. intros event rest ->. reflexivity.
Qed.

(** X2. Whatever the iteration and whatever the stream [start] is given,
    [start] completes without throwing and leaves the stream terminated,
    never readable; the chunks written before are kept as they were, and
    what is appended is either nothing or exactly the frames of the
    events yielded, in order. *)
Theorem start_always_terminates_stream (events : AsyncIter) (w : StreamWorld) :
  let run := start engine events w in
  fst run = inl tt /\
  state (ctrl (snd run)) <> Readable /\
  exists more,
    written (ctrl (snd run)) = written (ctrl w) ++ more /\
    (more = [] \/ more = map frame (yielded events)) /\
    (state (ctrl w) = Readable -> more = map frame (yielded events)).
Proof.
  cbv zeta. destruct (state (ctrl w)) eqn:Hst.
  - destruct (start_readable events w Hst) as [tail [Hrun _]]. rewrite Hrun.
    cbn [fst snd ctrl written state]. split; [reflexivity|]. split.
    + unfold final_state. destruct (iter_end events); discriminate.
    + exists (map frame (yielded events)). split; [reflexivity|].
      split; [right; reflexivity | reflexivity].
  - rewrite start_refused by (rewrite Hst; reflexivity).
    cbn [fst snd ctrl]. rewrite Hst. split; [reflexivity|].
    split; [discriminate|]. exists []. rewrite app_nil_r.
    split; [reflexivity|]. split; [left; reflexivity | discriminate].
  - rewrite start_refused by (rewrite Hst; reflexivity).
    cbn [fst snd ctrl]. rewrite Hst. split; [reflexivity|].
    split; [discriminate|]. exists []. rewrite app_nil_r.
    split; [reflexivity|]. split; [left; reflexivity | discriminate].
Qed.

End RelayAnywhere.

Lemma start_on_terminated_stream_witness :
  let events := iteration [Sample.delta; Sample.done] None in
  let w := {| ctrl := {| written := [frame Sample.done]; state := Closed |};
              trace := [] |} in
  state (ctrl w) <> Readable /\
  fst (start Sample.engine events w) = inl tt /\
  ctrl (snd (start Sample.engine events w)) = ctrl w /\
  trace (snd (start Sample.engine events w))
    = trace w ++ refused_steps Sample.engine events.
Proof.
  split; [discriminate|].
  pose proof (start_on_terminated_stream Sample.engine
                (iteration [Sample.delta; Sample.done] None)
                {| ctrl := {| written := [frame Sample.done]; state := Closed |};
                   trace := [] |}) as H.
  destruct H as (H1 & H2 & H3 & _); [discriminate|].
  split; [exact H1|]. split; [exact H2 | exact H3].
Defined.

(** ** Frames *)

Lemma JSON_parse_trailing (v : json) (tail : jstring) :
  wf_json v = true ->
  number_end tail = true ->
  skip_ws tail = [] ->
  JSON_parse (JSON_stringify v ++ tail) = Some v.
Proof.
  intros Hwf Hend Hws. unfold JSON_parse.
  rewrite (parse_value_JSON_stringify v Hwf); [rewrite Hws; reflexivity | | exact Hend].
  pose proof (cost_le_length v Hwf). rewrite length_app. lia.
Qed.

Lemma frame_payload_injective (event event' : UpstreamEvent) :
  wf_json (event_value event) = true ->
  wf_json (event_value event') = true ->
  frame event = frame event' ->
  event = event'.
Proof.
  intros Hwf Hwf' Hframe. unfold frame, JSON_stringify_literal in Hframe.
  apply app_inv_head in Hframe. apply app_inv_tail in Hframe.
  pose proof (JSON_parse_JSON_stringify _ (envelope_wf event Hwf)) as Hp.
  pose proof (JSON_parse_JSON_stringify _ (envelope_wf event' Hwf')) as Hp'.
  rewrite Hframe, Hp' in Hp.
  assert (Hd : get_own (lit "data") (defined_props (envelope event))
               = get_own (lit "data") (defined_props (envelope event')))
    by congruence.
  rewrite !envelope_data in Hd. unfold event_value in Hd.
  destruct event, event'. cbn [own] in Hd. congruence.
Qed.

Lemma map_frame_injective (evs evs' : list UpstreamEvent) :
  Forall (fun event => wf_json (event_value event) = true) evs ->
  Forall (fun event => wf_json (event_value event) = true) evs' ->
  map frame evs = map frame evs' ->
  evs = evs'.
Proof.
  intros Hwf. revert evs'. induction Hwf as [|event evs Hev Hevs IH];
    intros evs' Hwf' Hmap.
  - destruct evs'; [reflexivity | discriminate].
  - destruct evs' as [|event' evs']; [discriminate|].
    inversion Hwf' as [|x l Hev' Hevs']; subst.
    cbn [map] in Hmap.
    assert (Hhead : frame event = frame event') by congruence.
    assert (Htail : map frame evs = map frame evs') by congruence.
    f_equal; [apply frame_payload_injective; assumption | apply IH; assumption].
Qed.

Lemma written_on_fresh_stream (engine : Engine) (events : AsyncIter) :
  written (ctrl (snd (new_ReadableStream engine events))) = map frame (yielded events).
Proof.
  destruct (iter_end events) as [e|] eqn:Hend.
  - rewrite (start_faulted engine events Hend). reflexivity.
  - rewrite (start_exhausted engine events Hend). reflexivity.
Qed.

(** X3. The relay loses nothing: two events with the same frame are the
    same event, so the chunks a stream has written determine the events
    the provider yielded, one by one and in order. *)
Theorem written_frames_determine_events
    (engine : Engine) (events events' : AsyncIter) :
  Forall (fun event => wf_json (event_value event) = true) (yielded events) ->
  Forall (fun event => wf_json (event_value event) = true) (yielded events') ->
  written (ctrl (snd (new_ReadableStream engine events)))
    = written (ctrl (snd (new_ReadableStream engine events'))) ->
  yielded events = yielded events'.
Proof.
  intros Hwf Hwf'. rewrite !written_on_fresh_stream.
  apply map_frame_injective; assumption.
Qed.

Lemma written_frames_determine_events_witness :
  let events := iteration [Sample.delta; Sample.done] None in
  let events' := iteration [Sample.delta; Sample.done] (Some Sample.fault) in
  yielded events = yielded events'.
Proof.
  apply (written_frames_determine_events Sample.engine
           (iteration [Sample.delta; Sample.done] None)
           (iteration [Sample.delta; Sample.done] (Some Sample.fault))).
  - repeat constructor.
  - repeat constructor.
  - vm_compute. reflexivity.
Defined.

(** X4. What follows the six characters [data: ] in a frame can be
    handed to [JSON.parse] as it is, the two line feeds being JSON white
    space: the result is the envelope.  An event without a [type] is
    relayed all the same, in an envelope whose only property is [data]. *)
Theorem frame_parses_after_prefix (event : UpstreamEvent) :
  wf_json (event_value event) = true ->
  exists text,
    strip_prefix (lit "data: ") (frame event) = Some text /\
    JSON_parse text = Some (JObj (defined_props (envelope event))) /\
    (type event = undefined ->
     defined_props (envelope event) = [(lit "data", event_value event)]).
Proof.
  intros Hwf.
  exists (JSON_stringify (JObj (defined_props (envelope event)))
            ++ [cNewline; cNewline]).
  split; [|split].
  - unfold frame, JSON_stringify_literal.
    assert (Hstrip : forall p s, strip_prefix p (p ++ s) = Some s).
    { induction p as [|a p IH]; intros s; [reflexivity|].
      cbn [app strip_prefix]. rewrite N.eqb_refl. apply IH. }
    apply Hstrip.
  - apply JSON_parse_trailing; [apply envelope_wf, Hwf | reflexivity | reflexivity].
  - intros Htype. rewrite envelope_props, Htype. reflexivity.
Qed.

Lemma frame_parses_after_prefix_witness :
  let untyped := {| own := [(lit "delta", JStr (lit "hi"))] |} in
  exists text,
    strip_prefix (lit "data: ") (frame untyped) = Some text /\
    JSON_parse text = Some (JObj (defined_props (envelope untyped))) /\
    (type untyped = undefined ->
     defined_props (envelope untyped) = [(lit "data", event_value untyped)]).
Proof.
  apply (frame_parses_after_prefix {| own := [(lit "delta", JStr (lit "hi"))] |}).
  reflexivity.
Defined.

(** ** The handler, case by case *)

(** The five ways through [fetch], each with its outcome in the goal. *)
Ltac handler_cases engine sdk html request env :=
  let Ho := fresh "Ho" in
  let Hg := fresh "Hg" in
  let Hp := fresh "Hp" in
  let Hr := fresh "Hr" in
  destruct (String.eqb_spec (method request) "OPTIONS") as [Ho|Ho];
  [ rewrite (@serve_options engine sdk html request env Ho)
  | destruct (String.eqb_spec (method request) "GET") as [Hg|Hg];
    [ rewrite (@serve_get engine sdk html request env Hg)
    | destruct (String.eqb_spec (method request) "POST") as [Hp|Hp];
      [ destruct (String.eqb_spec (pathname (url request)) "/api/turn_response")
          as [Hr|Hr];
        [ rewrite (@serve_relay engine sdk html request env Hp Hr)
        | rewrite (@serve_not_found engine sdk html request env Hp Hr) ]
      | rewrite (@serve_other_method engine sdk html request env Ho Hg Hp) ] ] ].

(** The ways through the [try] block of a POST to the relay route. *)
Ltac relay_cases :=
  match goal with
  | |- context [JSON_parse ?t] => destruct (JSON_parse t) as [[]|] eqn:?
  end;
  try match goal with
      | |- context [sdk_construct ?s ?k] => destruct (sdk_construct s k) eqn:?
      end;
  try match goal with
      | |- context [sdk_create ?a ?b ?c] => destruct (sdk_create a b c) eqn:?
      end.

(** X5. [fetch] always answers: whatever the request, the bindings and
    the SDK do, no exception leaves the handler, and the status of the
    response is 200, 404, 405 or 500. *)
Theorem fetch_always_answers
    (engine : Engine) (sdk : SDK) (html : jstring) (request : Request) (env : Env) :
  exists resp,
    fst (serve engine sdk html request env) = inl resp /\
    (status resp = 200 \/ status resp = 404 \/ status resp = 405 \/
     status resp = 500)%N.
Proof.
  handler_cases engine sdk html request env; try relay_cases;
    eexists; (split; [reflexivity|]); cbn; auto.
Qed.

(** X6. A response carries the CORS header set exactly when its status
    is not 404. *)
Theorem cors_exactly_when_not_404
    (engine : Engine) (sdk : SDK) (html : jstring) (request : Request) (env : Env) :
  exists resp,
    fst (serve engine sdk html request env) = inl resp /\
    (has_cors resp <-> status resp <> 404%N).
Proof.
  handler_cases engine sdk html request env; try relay_cases;
    eexists; (split; [reflexivity|]);
    (split; [intros Hc; try discriminate | intros Hs; try (repeat split; fail)]).
  - destruct Hc as [Hc _]. discriminate Hc.
  - exfalso. apply Hs. reflexivity.
Qed.

(** X7. For a method other than POST the answer depends on the method
    alone: not on the path, the body, the bindings or the SDK; nothing is
    logged and no upstream call is made. *)
Theorem non_post_depends_on_method_only
    (engine engine' : Engine) (sdk sdk' : SDK) (html : jstring)
    (request request' : Request) (env env' : Env) :
  method request <> "POST"%string ->
  method request' = method request ->
  serve engine sdk html request env = serve engine' sdk' html request' env' /\
  snd (serve engine sdk html request env) = fresh_world.
Proof.
  intros Hnp Hsame.
  destruct (String.eqb_spec (method request) "OPTIONS") as [Ho|Ho].
  { rewrite (@serve_options engine sdk html request env Ho).
    rewrite (@serve_options engine' sdk' html request' env')
      by (rewrite Hsame; exact Ho).
    split; reflexivity. }
  destruct (String.eqb_spec (method request) "GET") as [Hg|Hg].
  { rewrite (@serve_get engine sdk html request env Hg).
    rewrite (@serve_get engine' sdk' html request' env')
      by (rewrite Hsame; exact Hg).
    split; reflexivity. }
  rewrite (@serve_other_method engine sdk html request env Ho Hg Hnp).
  rewrite (@serve_other_method engine' sdk' html request' env')
    by (rewrite Hsame; assumption).
  split; reflexivity.
Qed.

Lemma non_post_depends_on_method_only_witness :
  serve Sample.engine (Sample.sdk IterDone) Sample.html (Stub.get "/") Sample.env
    = serve Sample.engine (Stub.rejecting Sample.fault) Sample.html
        (Stub.get "/api/turn_response") {| OPENAI_API_KEY := None |} /\
  snd (serve Sample.engine (Sample.sdk IterDone) Sample.html (Stub.get "/") Sample.env)
    = fresh_world.
Proof.
  apply (non_post_depends_on_method_only
           Sample.engine Sample.engine (Sample.sdk IterDone)
           (Stub.rejecting Sample.fault) Sample.html
           (Stub.get "/") (Stub.get "/api/turn_response")
           Sample.env {| OPENAI_API_KEY := None |}).
  - discriminate.
  - reflexivity.
Defined.

(** X8. A request makes at most one upstream call, and it makes one
    exactly when it is a POST to the relay route whose body parses to a
    value other than [null] and for which the client can be built; the
    call then carries the parameters read off that body. *)
Theorem upstream_called_exactly_when
    (engine : Engine) (sdk : SDK) (html : jstring) (request : Request) (env : Env) :
  let calls := upstream_calls (snd (serve engine sdk html request env)) in
  (length calls <= 1)%nat /\
  (calls <> [] <->
   method request = "POST"%string /\
   pathname (url request) = "/api/turn_response"%string /\
   sdk_construct sdk (OPENAI_API_KEY env) = None /\
   exists requestData,
     JSON_parse (body_text request) = Some requestData /\
     requestData <> JNull /\
     calls = [relay_params requestData]).
Proof.
  cbv zeta.
  handler_cases engine sdk html request env; try relay_cases;
    cbn [snd fst failed upstream_calls fresh_world length];
    (split; [lia|]);
    (split;
     [ intros Hc;
       first [ exfalso; apply Hc; reflexivity
             | (repeat split; try assumption);
               eexists; (split; [reflexivity|]);
               (split; [discriminate | reflexivity]) ]
     | intros (Hm & Hpath & Hkey & rd & Hrd & Hnull & Hcalls);
       first [ discriminate | congruence ] ]).
Qed.

(** X9. The handler writes to the console exactly when it answers 500:
    then it writes one line, labelled as the handler's, with the value
    caught, and the response is the error response for that value; in
    every other case it writes nothing. *)
Theorem logged_exactly_when_500
    (engine : Engine) (sdk : SDK) (html : jstring) (request : Request) (env : Env) :
  exists resp,
    fst (serve engine sdk html request env) = inl resp /\
    ((status resp = 500%N /\
      exists e, console (snd (serve engine sdk html request env))
                  = [(lit "Error in handler:", e)] /\
                resp = error_response e) \/
     (status resp <> 500%N /\
      console (snd (serve engine sdk html request env)) = [])).
Proof.
  handler_cases engine sdk html request env; try relay_cases;
    eexists; (split; [reflexivity|]);
    first [ right; split; [discriminate | reflexivity]
          | left; split; [reflexivity|]; eexists; split; reflexivity ].
Qed.

(** X10. The body of the error response is JSON text on one line, and
    parsing it gives the object whose [error] is the message of the value
    caught, character for character, whatever the message holds. *)
Theorem error_body_round_trip (error : thrown) (w : FetchWorld) :
  exists resp text,
    fst (handler_catch error w) = inl resp /\
    body resp = BodyText text /\
    JSON_parse text = Some (JObj [(lit "error", JStr (error_message error))]) /\
    ~ In cNewline text.
Proof.
  eexists. eexists. split; [reflexivity|]. split; [reflexivity|]. split.
  - apply JSON_parse_JSON_stringify. reflexivity.
  - apply printable_no_newline, JSON_stringify_printable.
Qed.

(** ** Failures before the stream *)

(** X11. When the client cannot be built, a POST to the relay route is
    answered 500 and no upstream call is made; the body comes first all
    the same: a body that does not parse, or that is [null], is what the
    response reports, and only a body that passed is answered with the
    constructor's error. *)
Theorem client_failure_makes_no_call
    (engine : Engine) (sdk : SDK) (html : jstring) (request : Request) (env : Env)
    (e : thrown) :
  method request = "POST"%string ->
  pathname (url request) = "/api/turn_response"%string ->
  sdk_construct sdk (OPENAI_API_KEY env) = Some e ->
  serve engine sdk html request env =
    failed
      match JSON_parse (body_text request) with
      | None => ErrorObject (syntax_error_message engine (body_text request))
      | Some JNull => ErrorObject (destructure_message engine)
      | Some _ => e
      end [].
Proof.
  intros Hm Hp Hkey. rewrite (@serve_relay engine sdk html request env Hm Hp), Hkey.
  destruct (JSON_parse (body_text request)) as [[]|]; reflexivity.
Qed.

Lemma client_failure_makes_no_call_witness :
  let sdk := Stub.unbuildable Sample.fault in
  serve Sample.engine sdk Sample.html
    (Sample.post "/api/turn_response" Sample.hi_body) Sample.env
  = failed Sample.fault [] /\
  serve Sample.engine sdk Sample.html
    (Sample.post "/api/turn_response" (lit "null")) Sample.env
  = failed (ErrorObject (destructure_message Sample.engine)) [].
Proof.
  split.
  - exact (client_failure_makes_no_call
             Sample.engine (Stub.unbuildable Sample.fault) Sample.html
             (Sample.post "/api/turn_response" Sample.hi_body) Sample.env
             Sample.fault eq_refl eq_refl eq_refl).
  - exact (client_failure_makes_no_call
             Sample.engine (Stub.unbuildable Sample.fault) Sample.html
             (Sample.post "/api/turn_response" (lit "null")) Sample.env
             Sample.fault eq_refl eq_refl eq_refl).
Defined.

(** X12. When the upstream call rejects, the request is answered 500
    with a text body, never a stream; the one call made is on record; the
    message is the one of the error thrown, or [Unknown error] when what
    was thrown is not an error. *)
Theorem upstream_rejection_is_500
    (engine : Engine) (sdk : SDK) (html : jstring) (request : Request) (env : Env)
    (requestData : json) (e : thrown) :
  method request = "POST"%string ->
  pathname (url request) = "/api/turn_response"%string ->
  JSON_parse (body_text request) = Some requestData ->
  requestData <> JNull ->
  sdk_construct sdk (OPENAI_API_KEY env) = None ->
  sdk_create sdk {| apiKey := OPENAI_API_KEY env |} (relay_params requestData)
    = inr e ->
  exists resp,
    serve engine sdk html request env =
      (inl resp, {| console := [(lit "Error in handler:", e)];
                    upstream_calls := [relay_params requestData] |}) /\
    (forall message, e = ErrorObject message -> is_error_response resp message) /\
    (forall v, e = NonError v -> is_error_response resp (lit "Unknown error")) /\
    (forall run, body resp <> BodyStream run).
Proof.
  intros Hm Hp Hparse Hnull Hkey Hcreate.
  rewrite (@serve_relay engine sdk html request env Hm Hp), Hparse.
  exists (error_response e).
  destruct requestData; try congruence; rewrite Hkey, Hcreate;
    (split; [reflexivity|]);
    (split; [intros message ->; repeat split|]);
    (split; [intros v ->; repeat split | intros run; discriminate]).
Qed.

Lemma upstream_rejection_is_500_witness :
  let sdk := Stub.rejecting (NonError (Some (JStr (lit "rate limited")))) in
  exists resp,
    fst (serve Sample.engine sdk Sample.html
           (Sample.post "/api/turn_response" (lit "{}")) Sample.env) = inl resp /\
    is_error_response resp (lit "Unknown error").
Proof.
  destruct (upstream_rejection_is_500
              Sample.engine (Stub.rejecting (NonError (Some (JStr (lit "rate limited")))))
              Sample.html (Sample.post "/api/turn_response" (lit "{}")) Sample.env
              (JObj []) (NonError (Some (JStr (lit "rate limited")))))
    as [resp (Hserve & _ & Hunknown & _)].
  - reflexivity.
  - reflexivity.
  - vm_compute. reflexivity.
  - discriminate.
  - reflexivity.
  - reflexivity.
  - exists resp. split.
    + rewrite Hserve. reflexivity.
    + exact (Hunknown _ eq_refl).
Defined.

(** X13. Of the bodies that are JSON but no object, only [null] is
    refused (the destructuring throws, the answer is 500 and no call is
    made); an array, a string, a number or a boolean goes through, and
    the upstream call is made with [input] and [tools] both undefined. *)
Theorem non_object_bodies
    (engine : Engine) (sdk : SDK) (html : jstring) (request : Request) (env : Env)
    (requestData : json) :
  method request = "POST"%string ->
  pathname (url request) = "/api/turn_response"%string ->
  JSON_parse (body_text request) = Some requestData ->
  (forall props, requestData <> JObj props) ->
  (requestData = JNull ->
   serve engine sdk html request env
     = failed (ErrorObject (destructure_message engine)) []) /\
  (requestData <> JNull ->
   sdk_construct sdk (OPENAI_API_KEY env) = None ->
   upstream_calls (snd (serve engine sdk html request env)) =
     [{| model := MODEL; input := undefined; tools := undefined;
         stream := true; parallel_tool_calls := false |}]).
Proof.
  intros Hm Hp Hparse Hobj.
  rewrite (@serve_relay engine sdk html request env Hm Hp), Hparse. split.
  - intros ->. reflexivity.
  - intros Hnull Hkey. rewrite Hkey.
    destruct requestData as [|b|x|s|l|props]; try congruence;
      try (exfalso; apply (Hobj props); reflexivity);
      match goal with |- context [sdk_create ?a ?b ?c] =>
        destruct (sdk_create a b c) end; reflexivity.
Qed.

Lemma non_object_bodies_witness :
  let request := Sample.post "/api/turn_response" (lit "[1, 2]") in
  upstream_calls (snd (serve Sample.engine (Sample.sdk IterDone) Sample.html
                         request Sample.env)) =
    [{| model := MODEL; input := undefined; tools := undefined;
        stream := true; parallel_tool_calls := false |}].
Proof.
  refine (proj2 (non_object_bodies
                   Sample.engine (Sample.sdk IterDone) Sample.html
                   (Sample.post "/api/turn_response" (lit "[1, 2]")) Sample.env
                   (JArr [JNum (NumFinite false [1%N] 1);
                          JNum (NumFinite false [2%N] 1)])
                   eq_refl eq_refl _ _) _ _).
  - vm_compute. reflexivity.
  - discriminate.
  - discriminate.
  - reflexivity.
Defined.

(** ** From the client's JSON to the upstream call *)

(** X14. When the body is the JSON text a client gets from
    [JSON.stringify({ messages, tools })], with [tools] possibly
    undefined, the upstream call receives exactly that [messages] value
    as [input] and exactly that [tools] (undefined when the client had
    none): nothing is added to the conversation and nothing taken away. *)
Theorem serialized_request_is_forwarded
    (engine : Engine) (sdk : SDK) (html : jstring) (request : Request) (env : Env)
    (messages : json) (tools : jsval) :
  method request = "POST"%string ->
  pathname (url request) = "/api/turn_response"%string ->
  body_text request =
    JSON_stringify_literal [(lit "messages", Some messages); (lit "tools", tools)] ->
  wf_json messages = true ->
  (forall t, tools = Some t -> wf_json t = true) ->
  sdk_construct sdk (OPENAI_API_KEY env) = None ->
  upstream_calls (snd (serve engine sdk html request env)) =
    [{| model := MODEL; input := Some messages; tools := tools;
        stream := true; parallel_tool_calls := false |}].
Proof.
  intros Hm Hp Hbody Hwf Hwft Hkey.
  assert (Hparse : JSON_parse (body_text request)
                   = Some (JObj (defined_props
                                   [(lit "messages", Some messages);
                                    (lit "tools", tools)]))).
  { rewrite Hbody. unfold JSON_stringify_literal.
    apply JSON_parse_JSON_stringify.
    destruct tools as [t|]; cbn [defined_props wf_json map fst snd forallb].
    - rewrite Hwf, (Hwft t eq_refl). reflexivity.
    - rewrite Hwf. reflexivity. }
  rewrite (@serve_relay engine sdk html request env Hm Hp), Hparse, Hkey.
  assert (Hin : relay_params (JObj (defined_props
                                      [(lit "messages", Some messages);
                                       (lit "tools", tools)]))
                = {| model := MODEL; input := Some messages; tools := tools;
                     stream := true; parallel_tool_calls := false |}).
  { unfold relay_params, field.
    destruct tools as [t|]; cbn [defined_props get_own];
      rewrite ?jstring_eqb_refl;
      rewrite ?(@jstring_eqb_neq (lit "tools") (lit "messages"))
        by (vm_compute; discriminate);
      rewrite ?jstring_eqb_refl; reflexivity. }
  cbn [defined_props] in *. rewrite Hin.
  destruct tools as [t|];
    match goal with |- context [sdk_create ?a ?b ?c] =>
      destruct (sdk_create a b c) end; reflexivity.
Qed.

Lemma serialized_request_is_forwarded_witness :
  let messages := JArr [JObj [(lit "role", JStr (lit "user"));
                              (lit "content", JStr (lit "hi"))]] in
  let request := Sample.post "/api/turn_response" Sample.hi_body in
  upstream_calls (snd (serve Sample.engine (Sample.sdk IterDone) Sample.html
                         request Sample.env)) =
    [{| model := MODEL; input := Some messages; tools := undefined;
        stream := true; parallel_tool_calls := false |}].
Proof.
  refine (serialized_request_is_forwarded
            Sample.engine (Sample.sdk IterDone) Sample.html
            (Sample.post "/api/turn_response" Sample.hi_body) Sample.env
            (JArr [JObj [(lit "role", JStr (lit "user"));
                         (lit "content", JStr (lit "hi"))]])
            undefined eq_refl eq_refl eq_refl eq_refl _ eq_refl).
  intros t Ht. discriminate Ht.
Defined.

(** ** From the request to the stream *)

(** X15. Once the upstream call has resolved, the answer is 200 with a
    stream for a body, the handler logs nothing, and this holds however
    the iteration ends: a fault in the middle of the stream does not
    reach the handler's [catch] and cannot turn the answer into a 500;
    it ends up in the state of the stream, after the frames of the
    events yielded before it. *)
Theorem accepted_post_streams_every_event
    (engine : Engine) (sdk : SDK) (html : jstring) (request : Request) (env : Env)
    (requestData : json) (events : AsyncIter) :
  method request = "POST"%string ->
  pathname (url request) = "/api/turn_response"%string ->
  JSON_parse (body_text request) = Some requestData ->
  requestData <> JNull ->
  sdk_construct sdk (OPENAI_API_KEY env) = None ->
  sdk_create sdk {| apiKey := OPENAI_API_KEY env |} (relay_params requestData)
    = inl events ->
  exists resp run,
    serve engine sdk html request env =
      (inl resp, {| console := []; upstream_calls := [relay_params requestData] |}) /\
    status resp = 200%N /\
    body resp = BodyStream run /\
    fst run = inl tt /\
    written (ctrl (snd run)) = map frame (yielded events) /\
    state (ctrl (snd run)) = final_state events.
Proof.
  intros Hm Hp Hparse Hnull Hkey Hcreate.
  rewrite (@serve_relay engine sdk html request env Hm Hp), Hparse.
  exists (stream_response engine events), (new_ReadableStream engine events).
  assert (Hrun : fst (new_ReadableStream engine events) = inl tt /\
                 written (ctrl (snd (new_ReadableStream engine events)))
                   = map frame (yielded events) /\
                 state (ctrl (snd (new_ReadableStream engine events)))
                   = final_state events).
  { unfold final_state. destruct (iter_end events) as [e|] eqn:Hend.
    - rewrite (start_faulted engine events Hend). repeat split.
    - rewrite (start_exhausted engine events Hend). repeat split. }
  destruct Hrun as (H1 & H2 & H3).
  destruct requestData; try congruence; rewrite Hkey, Hcreate;
    repeat split; assumption.
Qed.

Lemma accepted_post_streams_every_event_witness :
  let events := iteration [Sample.delta] (Some Sample.fault) in
  let request := Sample.post "/api/turn_response" (lit "{}") in
  exists resp run,
    serve Sample.engine (Sample.sdk events) Sample.html request Sample.env =
      (inl resp, {| console := []; upstream_calls := [relay_params (JObj [])] |}) /\
    status resp = 200%N /\
    body resp = BodyStream run /\
    fst run = inl tt /\
    written (ctrl (snd run)) = map frame (yielded events) /\
    state (ctrl (snd run)) = final_state events.
Proof.
  refine (accepted_post_streams_every_event
            Sample.engine (Sample.sdk (iteration [Sample.delta] (Some Sample.fault)))
            Sample.html (Sample.post "/api/turn_response" (lit "{}")) Sample.env
            (JObj []) (iteration [Sample.delta] (Some Sample.fault))
            eq_refl eq_refl _ _ eq_refl eq_refl).
  - vm_compute. reflexivity.
  - discriminate.
Defined.

(** ** The two listings *)

(** X16. The two listings of the handler answer every OPTIONS request
    and every POST request alike: same response, same console, same
    upstream calls. *)
Theorem listings_agree_on_options_and_post
    (engine : Engine) (sdk : SDK) (html : jstring) (request : Request) (env : Env) :
  method request = "OPTIONS"%string \/ method request = "POST"%string ->
  FirstListing.serve engine sdk request env = serve engine sdk html request env.
Proof.
  intros [Hm|Hm]; unfold FirstListing.serve, FirstListing.fetch, serve, fetch;
    rewrite Hm; cbn [String.eqb Ascii.eqb Bool.eqb negb]; reflexivity.
Qed.

Lemma listings_agree_on_options_and_post_witness :
  let request := Sample.post "/api/turn_response" Sample.hi_body in
  FirstListing.serve Sample.engine (Sample.sdk IterDone) request Sample.env
  = serve Sample.engine (Sample.sdk IterDone) Sample.html request Sample.env.
Proof.
  apply (listings_agree_on_options_and_post
           Sample.engine (Sample.sdk IterDone) Sample.html
           (Sample.post "/api/turn_response" Sample.hi_body) Sample.env).
  right. reflexivity.
Defined.

(** X17. In the first listing every other method, GET included, is
    refused with 405 whatever the path, and that response has no CORS
    header; the second listing answers GET with the page and gives its
    405 the CORS header set. *)
Theorem first_listing_refuses_other_methods
    (engine : Engine) (sdk : SDK) (html : jstring) (request : Request) (env : Env) :
  method request <> "OPTIONS"%string ->
  method request <> "POST"%string ->
  exists resp resp',
    FirstListing.serve engine sdk request env = (inl resp, fresh_world) /\
    status resp = 405%N /\
    headers resp = [("Content-Type", "text/plain;charset=UTF-8")%string] /\
    ~ has_cors resp /\
    serve engine sdk html request env = (inl resp', fresh_world) /\
    has_cors resp' /\
    (status resp' = 200%N <-> method request = "GET"%string) /\
    (status resp' = 405%N <-> method request <> "GET"%string).
Proof.
  intros Ho Hp.
  assert (Hfirst : FirstListing.serve engine sdk request env =
            (inl {| status := 405;
                    headers := [("Content-Type", "text/plain;charset=UTF-8")%string];
                    body := BodyText (lit "Method not allowed") |}, fresh_world)).
  { unfold FirstListing.serve, FirstListing.fetch.
    apply String.eqb_neq in Ho, Hp. rewrite Ho, Hp. reflexivity. }
  rewrite Hfirst.
  destruct (String.eqb_spec (method request) "GET") as [Hg|Hg].
  - rewrite (@serve_get engine sdk html request env Hg).
    eexists. eexists. split; [reflexivity|]. split; [reflexivity|].
    split; [reflexivity|]. split; [intros [Hc _]; discriminate Hc|].
    split; [reflexivity|]. split; [repeat split|].
    split; split; intros H; try reflexivity; try exact Hg;
      try discriminate H; contradiction.
  - rewrite (@serve_other_method engine sdk html request env Ho Hg Hp).
    eexists. eexists. split; [reflexivity|]. split; [reflexivity|].
    split; [reflexivity|]. split; [intros [Hc _]; discriminate Hc|].
    split; [reflexivity|]. split; [repeat split|].
    split; split; intros H; try reflexivity; try exact Hg;
      try discriminate H; contradiction.
Qed.

Lemma first_listing_refuses_other_methods_witness :
  exists resp resp',
    FirstListing.serve Sample.engine (Sample.sdk IterDone) (Stub.get "/") Sample.env
      = (inl resp, fresh_world) /\
    status resp = 405%N /\
    ~ has_cors resp /\
    serve Sample.engine (Sample.sdk IterDone) Sample.html (Stub.get "/") Sample.env
      = (inl resp', fresh_world) /\
    status resp' = 200%N.
Proof.
  destruct (first_listing_refuses_other_methods
              Sample.engine (Sample.sdk IterDone) Sample.html (Stub.get "/")
              Sample.env)
    as (resp & resp' & H1 & H2 & _ & H4 & H5 & _ & H7 & _).
  - discriminate.
  - discriminate.
  - exists resp, resp'. split; [exact H1|]. split; [exact H2|].
    split; [exact H4|]. split; [exact H5|]. apply (proj2 H7). reflexivity.
Defined.
